(** * llamafile chatbot: the session loop of [llamafile/chatbot.cpp]

    A shallow embedding of the chat front-end: the context accountant
    ([n_past]), the batched evaluator ([eval_tokens]), the command
    dispatcher ([handle_command]), the generation loop and the REPL of
    [chatbot_main].  The inference engine (llama.cpp) and the line editor
    are external; the engine is an interface ([Engine]) and the terminal is
    a trace of events. *)

From Stdlib Require Import ZArith List String Ascii Bool Lia DecimalString.
From Equations Require Import Equations.
Import ListNotations.
Open Scope Z_scope.

(** ** Machine integers

    [int] is a 32-bit two's complement integer.  Arithmetic on it is
    written with its wrap-around. *)
Module Int32.

Definition INT_MAX : Z := 2147483647.
Definition INT_MIN : Z := -2147483648.

Definition wrap (z : Z) : Z := (z + 2147483648) mod 4294967296 - 2147483648.

Definition add (a b : Z) : Z := wrap (a + b).
Definition sub (a b : Z) : Z := wrap (a - b).

Definition in_range (z : Z) : Prop := INT_MIN <= z <= INT_MAX.

End Int32.

(** ** C strings and <ctype.h> *)

Definition NUL : ascii := Ascii.zero.
Definition ESC : ascii := ascii_of_nat 27.
Definition LF : string := String (ascii_of_nat 10) EmptyString.
Definition CR : string := String (ascii_of_nat 13) EmptyString.

(** [s[i]] for a NUL-terminated string: the position just after the last
    character holds the terminator. *)
Definition char_at (s : string) (i : nat) : ascii :=
  match String.get i s with
  | Some c => c
  | None => NUL
  end.

(** [s + 1]: the string that starts at the second character. *)
Definition cstr_tail (s : string) : string :=
  match s with
  | EmptyString => EmptyString
  | String _ s' => s'
  end.

(** [isalpha] and [isspace] in the C locale. *)
Definition isalpha (c : ascii) : bool :=
  let n := nat_of_ascii c in
  ((65 <=? n) && (n <=? 90) || (97 <=? n) && (n <=? 122))%nat.

Definition isspace (c : ascii) : bool :=
  let n := nat_of_ascii c in
  ((n =? 32) || (9 <=? n) && (n <=? 13))%nat.

(** [is_empty]: every character up to the terminator is white space. *)
Fixpoint is_empty (s : string) : bool :=
  match s with
  | EmptyString => true
  | String c s' => if negb (isspace c) then false else is_empty s'
  end.

(** The loop [while (iss >> arg) args.push_back(arg)]: each extraction
    skips leading white space and reads up to the next white space; it
    fails, ending the loop, when no character is left.  [cur] is the word
    being read. *)
Fixpoint extract_words (s : string) (cur : string) : list string :=
  match s with
  | EmptyString =>
      match cur with
      | EmptyString => []
      | _ => [cur]
      end
  | String c s' =>
      if isspace c then
        match cur with
        | EmptyString => extract_words s' EmptyString
        | _ => cur :: extract_words s' EmptyString
        end
      else extract_words s' (cur ++ String c EmptyString)
  end.

(** [printf("%d", z)] *)
Definition fmt_d (z : Z) : string := NilZero.string_of_int (Z.to_int z).

(** Terminal escape sequences of the source. *)
Definition BRIGHT_RED : string := String ESC "[91m".
Definition BRIGHT_GREEN : string := String ESC "[92m".
Definition BRIGHT_BLACK : string := String ESC "[90m".
Definition UNFOREGROUND : string := String ESC "[39m".
Definition CLEAR_FORWARD : string := String ESC "[K".

(** ** The inference engine *)

Definition llama_token : Type := Z.

Record llama_chat_msg : Type := {
  role : string;
  content : string
}.

(** What [llama_batch_get_one(&tokens[i], n_eval, n_past, 0)] hands to the
    engine: the [n_tokens] tokens the pointer designates, the position of
    the first one, and the sequence id. *)
Record llama_batch : Type := {
  token : list llama_token;
  n_tokens : Z;
  all_pos_0 : Z;
  all_seq_id : Z
}.

Definition llama_batch_get_one (tokens : list llama_token) (n pos_0 seq_id : Z)
  : llama_batch :=
  {| token := tokens; n_tokens := n; all_pos_0 := pos_0; all_seq_id := seq_id |}.

(** The fields of [gpt_params] the chatbot reads. *)
Record gpt_params : Type := {
  model : string;
  prompt : string;
  chat_template : string;
  n_batch : Z;
  special : bool
}.

(** The llama.cpp entry points the chatbot calls.  A call that updates the
    object behind a handle returns its new value: [llama_decode] the
    context, the two sampling calls the sampling context.  The others read
    only; [llama_print_timings] yields the text of its report.  The three
    calls that can return a null pointer or [false] yield [None] then. *)
Class Engine : Type := {
  llama_model : Type;
  llama_context : Type;
  llama_sampling_context : Type;
  gpt_params_parse : list string -> option gpt_params;
  llama_load_model_from_file : string -> option llama_model;
  llama_new_context_with_model : llama_model -> gpt_params -> option llama_context;
  llama_sampling_init : gpt_params -> llama_sampling_context;
  llama_decode : llama_context -> llama_batch -> llama_context * Z;
  llama_n_ctx : llama_context -> Z;
  llama_n_ctx_train : llama_model -> Z;
  llama_get_model : llama_context -> llama_model;
  llama_should_add_bos_token : llama_model -> bool;
  llama_tokenize : llama_context -> string -> bool -> bool -> list llama_token;
  llama_chat_apply_template :
    llama_model -> string -> list llama_chat_msg -> bool -> string;
  llama_sampling_sample :
    llama_sampling_context -> llama_context -> llama_token * llama_sampling_context;
  llama_sampling_accept :
    llama_sampling_context -> llama_context -> llama_token -> bool ->
    llama_sampling_context;
  llama_token_is_eog : llama_model -> llama_token -> bool;
  llama_token_to_piece : llama_context -> llama_token -> bool -> string;
  llama_print_timings : llama_context -> string
}.

(** ** Observable events

    Writes to the two output streams ([Stdout] through stdio, [Write1] by
    [write(1, ...)]), the lines read, and the engine calls whose order the
    specification speaks about.  [Call] stands for a call of a set-up or
    tear-down routine whose effect lies outside the session state, and
    [Banner] for the logo and the software and model lines. *)
Inductive event : Type :=
| Stdout (s : string)
| Flush
| Stderr (s : string)
| Write1 (s : string)
| Call (name : string)
| Banner (model_path : string)
| ReadLine (line : option string)
| ApplyTemplate (chat : list llama_chat_msg) (add_ass : bool) (msg : string)
| Tokenize (text : string) (add_special parse_special : bool)
| Decode (b : llama_batch) (rc : Z)
| Sample (id : llama_token)
| Accept (id : llama_token) (apply_grammar : bool)
| PrintTimings (log_disable : bool) (report : string).

Section Chatbot.

Context {E : Engine}.

(** ** Process state

    The globals of the translation unit ([n_past], [g_model], [g_ctx],
    [g_got_sigint]), the flag [FLAG_log_disable] of llamafile.h, the events
    produced so far (oldest first), and the environment's schedule of
    interrupts: [on_sigint] may run at any time, and its only effect is
    seen where the generation loop reads [g_got_sigint]; the schedule says,
    for each such read, whether a SIGINT was delivered since the previous
    one. *)
Record state : Type := {
  n_past : Z;
  g_model : llama_model;
  g_ctx : llama_context;
  g_got_sigint : Z;
  FLAG_log_disable : bool;
  trace : list event;
  sigint_schedule : list bool
}.

Definition set_n_past (n : Z) (st : state) : state :=
  {| n_past := n; g_model := g_model st; g_ctx := g_ctx st;
     g_got_sigint := g_got_sigint st; FLAG_log_disable := FLAG_log_disable st;
     trace := trace st; sigint_schedule := sigint_schedule st |}.

Definition set_g_ctx (c : llama_context) (st : state) : state :=
  {| n_past := n_past st; g_model := g_model st; g_ctx := c;
     g_got_sigint := g_got_sigint st; FLAG_log_disable := FLAG_log_disable st;
     trace := trace st; sigint_schedule := sigint_schedule st |}.

Definition set_g_got_sigint (v : Z) (st : state) : state :=
  {| n_past := n_past st; g_model := g_model st; g_ctx := g_ctx st;
     g_got_sigint := v; FLAG_log_disable := FLAG_log_disable st;
     trace := trace st; sigint_schedule := sigint_schedule st |}.

Definition set_FLAG_log_disable (b : bool) (st : state) : state :=
  {| n_past := n_past st; g_model := g_model st; g_ctx := g_ctx st;
     g_got_sigint := g_got_sigint st; FLAG_log_disable := b;
     trace := trace st; sigint_schedule := sigint_schedule st |}.

Definition set_sigint_schedule (l : list bool) (st : state) : state :=
  {| n_past := n_past st; g_model := g_model st; g_ctx := g_ctx st;
     g_got_sigint := g_got_sigint st; FLAG_log_disable := FLAG_log_disable st;
     trace := trace st; sigint_schedule := l |}.

Definition emit (e : event) (st : state) : state :=
  {| n_past := n_past st; g_model := g_model st; g_ctx := g_ctx st;
     g_got_sigint := g_got_sigint st; FLAG_log_disable := FLAG_log_disable st;
     trace := trace st ++ [e]; sigint_schedule := sigint_schedule st |}.

(** [on_sigint] *)
Definition on_sigint (st : state) : state := set_g_got_sigint 1 st.

(** Reading [g_got_sigint]: the handler runs first when the schedule says
    a signal arrived. *)
Definition deliver_sigint (st : state) : state :=
  match sigint_schedule st with
  | [] => st
  | b :: rest =>
      let st' := set_sigint_schedule rest st in
      if b then on_sigint st' else st'
  end.

(** ** Outcomes

    A call returns, or leaves through [exit], or runs into undefined
    behaviour (an out-of-bounds vector access), or is cut off, at the test
    of a loop, by the fuel given to that loop.  Each outcome carries the
    state reached. *)
Inductive outcome (A : Type) : Type :=
| Ret (a : A) (st : state)
| Exit (status : Z) (st : state)
| Undefined (st : state)
| OutOfFuel (st : state).

Arguments Ret {A} a st.
Arguments Exit {A} status st.
Arguments Undefined {A} st.
Arguments OutOfFuel {A} st.

Definition final_state {A : Type} (o : outcome A) : state :=
  match o with
  | Ret _ st => st
  | Exit _ st => st
  | Undefined st => st
  | OutOfFuel st => st
  end.

Definition M (A : Type) : Type := state -> outcome A.

Definition ret {A : Type} (a : A) : M A := fun st => Ret a st.

Definition bind {A B : Type} (m : M A) (k : A -> M B) : M B :=
  fun st =>
    match m st with
    | Ret a st' => k a st'
    | Exit c st' => Exit c st'
    | Undefined st' => Undefined st'
    | OutOfFuel st' => OutOfFuel st'
    end.

Definition get : M state := fun st => Ret st st.
Definition modify (f : state -> state) : M unit := fun st => Ret tt (f st).
Definition exit {A : Type} (status : Z) : M A := fun st => Exit status st.
Definition undefined {A : Type} : M A := fun st => Undefined st.

Definition printf (s : string) : M unit := modify (emit (Stdout s)).
Definition fprintf_stderr (s : string) : M unit := modify (emit (Stderr s)).
Definition fflush_stdout : M unit := modify (emit Flush).
Definition call (name : string) : M unit := modify (emit (Call name)).

Definition out_of_fuel {A : Type} : M A := fun st => OutOfFuel st.

Notation "x <- m ;; k" := (bind m (fun x => k))
  (at level 61, m at next level, right associativity).
Notation "m ;; k" := (bind m (fun _ => k))
  (at level 61, right associativity).

(** Engine calls made on the global handles. *)
Definition decode (b : llama_batch) : M Z :=
  fun st =>
    let (c, rc) := llama_decode (g_ctx st) b in
    Ret rc (emit (Decode b rc) (set_g_ctx c st)).

Definition tokenize (text : string) (add_special parse_special : bool)
  : M (list llama_token) :=
  fun st =>
    Ret (llama_tokenize (g_ctx st) text add_special parse_special)
        (emit (Tokenize text add_special parse_special) st).

Definition apply_template (tmpl : string) (chat : list llama_chat_msg)
  (add_ass : bool) : M string :=
  fun st =>
    let msg := llama_chat_apply_template (g_model st) tmpl chat add_ass in
    Ret msg (emit (ApplyTemplate chat add_ass msg) st).

(** ** Batched evaluator *)

Definition overflow_message (n max_context : Z) : string :=
  (LF ++ BRIGHT_RED
   ++ "error: ran out of context window at " ++ fmt_d n
   ++ " tokens; you can use the maximum context window size by passing the flag `-c "
   ++ fmt_d max_context ++ "` to llamafile." ++ UNFOREGROUND ++ LF)%string.

Definition die_out_of_context {A : Type} : M A :=
  st <- get ;;
  fprintf_stderr (overflow_message (n_past st) (llama_n_ctx_train (g_model st))) ;;
  exit 1.

(** [(int)tokens.size()] *)
Definition int_size (tokens : list llama_token) : Z :=
  Int32.wrap (Z.of_nat (List.length tokens)).

(** The [n] tokens at [&tokens[i]]. *)
Definition tokens_at (tokens : list llama_token) (i n : Z) : list llama_token :=
  firstn (Z.to_nat n) (skipn (Z.to_nat i) tokens).

(** The [for] loop of [eval_tokens], entered at its test with index [i];
    one unit of fuel per test. *)
Fixpoint eval_tokens_loop (fuel : nat) (tokens : list llama_token)
  (n_batch N i : Z) {struct fuel} : M unit :=
  match fuel with
  | O => out_of_fuel
  | S fuel' =>
      if i <? N then
        let n_eval := Int32.sub (int_size tokens) i in
        let n_eval := if n_eval >? n_batch then n_batch else n_eval in
        st <- get ;;
        rc <- decode (llama_batch_get_one (tokens_at tokens i n_eval) n_eval
                        (n_past st) 0) ;;
        (if rc =? 0 then ret tt else die_out_of_context) ;;
        modify (fun st' => set_n_past (Int32.add (n_past st') n_eval) st') ;;
        eval_tokens_loop fuel' tokens n_batch N (Int32.add i n_batch)
      else ret tt
  end.

Definition eval_tokens (fuel : nat) (tokens : list llama_token) (n_batch : Z)
  : M unit :=
  let N := int_size tokens in
  eval_tokens_loop fuel tokens n_batch N 0.

(** [eval_id]: a vector of one token, batch size 1; the loop makes two
    tests. *)
Definition eval_id (id : llama_token) : M unit :=
  eval_tokens 2 [id] 1.

Definition eval_string (fuel : nat) (str : string) (n_batch : Z)
  (add_special parse_special : bool) : M unit :=
  tokens <- tokenize str add_special parse_special ;;
  eval_tokens fuel tokens n_batch.

(** ** Command dispatcher *)

Definition handle_command (command : string) : M bool :=
  if negb (Ascii.eqb (char_at command 0) "/" && isalpha (char_at command 1))
  then ret false
  else
    let args := extract_words (cstr_tail command) EmptyString in
    match args with
    | [] => undefined
    | arg0 :: _ =>
        (if String.eqb arg0 "stats" then
           modify (set_FLAG_log_disable false) ;;
           st <- get ;;
           modify (emit (PrintTimings (FLAG_log_disable st)
                           (llama_print_timings (g_ctx st)))) ;;
           modify (set_FLAG_log_disable true)
         else if String.eqb arg0 "context" then
           st <- get ;;
           let configured_context := Int32.wrap (llama_n_ctx (g_ctx st)) in
           let max_context := llama_n_ctx_train (g_model st) in
           printf (fmt_d (n_past st) ++ " out of " ++ fmt_d configured_context
                   ++ " context tokens used ("
                   ++ fmt_d (Int32.sub configured_context (n_past st))
                   ++ " tokens remaining)" ++ LF)%string ;;
           (if configured_context <? max_context then
              printf ("use the `-c " ++ fmt_d max_context
                      ++ "` flag at startup for maximum context" ++ LF)%string
            else ret tt)
         else
           printf (arg0 ++ ": unrecognized command" ++ LF)%string) ;;
        ret true
    end.

(** ** Generation loop

    [while (!g_got_sigint) { ... }] of [chatbot_main], entered at its test;
    one unit of fuel per test.  [smpl] is the object behind
    [ctx_sampling]. *)
Fixpoint generate (fuel : nat) (params : gpt_params)
  (smpl : llama_sampling_context) {struct fuel} : M llama_sampling_context :=
  match fuel with
  | O => out_of_fuel
  | S fuel' =>
      modify deliver_sigint ;;
      st <- get ;;
      if g_got_sigint st =? 0 then
        let (id, smpl1) := llama_sampling_sample smpl (g_ctx st) in
        modify (emit (Sample id)) ;;
        let smpl2 := llama_sampling_accept smpl1 (g_ctx st) id true in
        modify (emit (Accept id true)) ;;
        if llama_token_is_eog (g_model st) id then ret smpl2
        else
          printf (llama_token_to_piece (g_ctx st) id (special params)) ;;
          fflush_stdout ;;
          eval_id id ;;
          generate fuel' params smpl2
      else ret smpl
  end.

(** The loop and the two statements after it: [g_got_sigint = 0] and
    [printf("\n")]. *)
Definition generation (fuel : nat) (params : gpt_params)
  (smpl : llama_sampling_context) : M llama_sampling_context :=
  smpl' <- generate fuel params smpl ;;
  modify (set_g_got_sigint 0) ;;
  printf LF ;;
  ret smpl'.

(** The rest of a REPL iteration once the line is known to be chat text:
    render and evaluate the user turn, then generate. *)
Definition user_turn (fuel : nat) (params : gpt_params)
  (smpl : llama_sampling_context) (line : string) : M llama_sampling_context :=
  let chat := [{| role := "user"; content := line |}] in
  msg <- apply_template (chat_template params) chat true ;;
  eval_string fuel msg (n_batch params) false true ;;
  generation fuel params smpl.

(** ** Session controller *)

(** The [for (;;)] loop of [chatbot_main].  [lines] is what
    [bestlineWithHistory] will return, one line per call, and a null
    pointer once the list is used up. *)
Fixpoint repl (fuel : nat) (params : gpt_params)
  (smpl : llama_sampling_context) (lines : list string) {struct lines}
  : M llama_sampling_context :=
  call "bestlineLlamaMode" ;;
  call "bestlineSetCompletionCallback" ;;
  modify (emit (Write1 BRIGHT_GREEN)) ;;
  match lines with
  | [] =>
      modify (emit (ReadLine None)) ;;
      modify (emit (Write1 UNFOREGROUND)) ;;
      ret smpl
  | line :: rest =>
      modify (emit (ReadLine (Some line))) ;;
      modify (emit (Write1 UNFOREGROUND)) ;;
      if is_empty line then repl fuel params smpl rest
      else
        handled <- handle_command line ;;
        if handled : bool then repl fuel params smpl rest
        else
          smpl' <- user_turn fuel params smpl line ;;
          repl fuel params smpl' rest
  end.

Definition print_ephemeral (description : string) : event :=
  Stderr (" " ++ BRIGHT_BLACK ++ description ++ UNFOREGROUND ++ CR)%string.

Definition clear_ephemeral : event := Stderr CLEAR_FORWARD.

Definition default_prompt : string :=
  ("A chat between a curious human and an artificial intelligence assistant. The "
   ++ "assistant gives helpful, detailed, and polite answers to the human's questions.")%string.

(** How the process ends: with an exit status (returned from
    [chatbot_main] or passed to [exit]), in undefined behaviour, or not
    within the fuel given. *)
Inductive result : Type :=
| Terminated (status : Z) (events : list event)
| Crashed (events : list event)
| Unfinished (events : list event).

(** The part of [chatbot_main] that runs on the initialised session:
    system turn, REPL, tear-down. *)
Definition session (fuel : nat) (params : gpt_params) (lines : list string)
  : M Z :=
  modify (emit (print_ephemeral "loading prompt...")) ;;
  st <- get ;;
  let add_bos := llama_should_add_bos_token (llama_get_model (g_ctx st)) in
  let chat := [{| role := "system"; content := prompt params |}] in
  msg <- apply_template (chat_template params) chat false ;;
  eval_string fuel msg (n_batch params) add_bos true ;;
  modify (emit clear_ephemeral) ;;
  printf ((if special params then msg else prompt params) ++ LF)%string ;;
  let ctx_sampling := llama_sampling_init params in
  call "llama_sampling_init" ;;
  call "signal" ;;
  _ <- repl fuel params ctx_sampling lines ;;
  call "llama_sampling_free" ;;
  call "llama_free" ;;
  call "llama_free_model" ;;
  call "llama_backend_free" ;;
  ret 0.

Definition with_prompt (p : string) (params : gpt_params) : gpt_params :=
  {| model := model params; prompt := p; chat_template := chat_template params;
     n_batch := n_batch params; special := special params |}.

(** [chatbot_main].  [log_disable0] is the value of [FLAG_log_disable] when
    the session starts, [schedule] the interrupts, [lines] the input. *)
Definition chatbot_main (argv : list string) (log_disable0 : bool)
  (schedule : list bool) (lines : list string) (fuel : nat) : result :=
  let ev0 := [Call "llamafile_check_cpu"; Call "ShowCrashReports";
              Call "log_disable"] in
  match gpt_params_parse argv with
  | None => Terminated 1 ev0
  | Some params =>
      let ev1 := ev0 ++ [Banner (model params);
                         print_ephemeral "initializing backend...";
                         Call "llama_backend_init"; clear_ephemeral;
                         print_ephemeral "initializing model..."] in
      match llama_load_model_from_file (model params) with
      | None => Terminated 2 ev1
      | Some m =>
          let ev2 := ev1 ++ [clear_ephemeral;
                             print_ephemeral "initializing context..."] in
          match llama_new_context_with_model m params with
          | None => Terminated 3 ev2
          | Some c =>
              let params :=
                if String.eqb (prompt params) EmptyString
                then with_prompt default_prompt params else params in
              let st0 := {| n_past := 0; g_model := m; g_ctx := c;
                            g_got_sigint := 0;
                            FLAG_log_disable := log_disable0;
                            trace := ev2 ++ [clear_ephemeral];
                            sigint_schedule := schedule |} in
              match session fuel params lines st0 with
              | Ret status st => Terminated status (trace st)
              | Exit status st => Terminated status (trace st)
              | Undefined st => Crashed (trace st)
              | OutOfFuel st => Unfinished (trace st)
              end
          end
      end
  end.

End Chatbot.

Arguments Ret {E A} a st.
Arguments Exit {E A} status st.
Arguments Undefined {E A} st.
Arguments OutOfFuel {E A} st.

Notation "x <- m ;; k" := (bind m (fun x => k))
  (at level 61, m at next level, right associativity).
Notation "m ;; k" := (bind m (fun _ => k))
  (at level 61, right associativity).

(** ** A small engine to run the program on

    The window holds [n_ctx] tokens; [decode] accepts a non-empty batch
    that ends inside the window and rejects any other.  The tokenizer
    yields one token per character, after token 1 when a
    beginning-of-sequence marker is asked for; the template is the
    contents of the turns, then [>] when the assistant is to answer.  The
    sampler replays the tokens of its script and then token 2, the end of
    generation. *)
Module Toy.

Definition tokenize (text : string) (add_special : bool) : list llama_token :=
  (if add_special then [1] else [])
  ++ map (fun c => Z.of_nat (nat_of_ascii c)) (list_ascii_of_string text).

Definition apply_template (chat : list llama_chat_msg) (add_ass : bool) : string :=
  (String.concat EmptyString (map content chat)
   ++ (if add_ass then ">" else EmptyString))%string.

Definition decode (n_ctx : Z) (cells : list llama_token) (b : llama_batch)
  : list llama_token * Z :=
  if (0 <? n_tokens b) && (all_pos_0 b + n_tokens b <=? n_ctx)
  then (cells ++ token b, 0)
  else (cells, 1).

Definition params (system_prompt : string) : gpt_params :=
  {| model := "/models/toy.gguf"; prompt := system_prompt;
     chat_template := EmptyString; n_batch := 4; special := false |}.

Definition parse (argv : list string) : option gpt_params :=
  match argv with
  | [] => None
  | _ :: rest => Some (params (String.concat " " rest))
  end.

Definition engine (n_ctx : Z) (add_bos : bool) (script : list llama_token)
  : Engine :=
  {| llama_model := unit;
     llama_context := list llama_token;
     llama_sampling_context := list llama_token;
     gpt_params_parse := parse;
     llama_load_model_from_file := fun _ => Some tt;
     llama_new_context_with_model := fun _ _ => Some [];
     llama_sampling_init := fun _ => script;
     llama_decode := decode n_ctx;
     llama_n_ctx := fun _ => n_ctx;
     llama_n_ctx_train := fun _ => 4096;
     llama_get_model := fun _ => tt;
     llama_should_add_bos_token := fun _ => add_bos;
     llama_tokenize := fun _ text add_special _ => tokenize text add_special;
     llama_chat_apply_template := fun _ _ chat add_ass => apply_template chat add_ass;
     llama_sampling_sample := fun s _ => (hd 2 s, tl s);
     llama_sampling_accept := fun s _ _ _ => s;
     llama_token_is_eog := fun _ id => id =? 2;
     llama_token_to_piece :=
       fun _ id _ => String (ascii_of_nat (Z.to_nat id)) EmptyString;
     llama_print_timings := fun _ => "timings"%string |}.

(** A session state of the engine with [n] tokens in context. *)
Definition state_at (n_ctx : Z) (add_bos : bool) (n : Z) (log_disable : bool)
  (schedule : list bool) : @state (engine n_ctx add_bos []) :=
  @Build_state (engine n_ctx add_bos []) n tt (repeat 7 (Z.to_nat n)) 0
    log_disable [] schedule.

End Toy.

(** ** Specification-level definitions

    What the specification says, written independently of the code, to be
    compared with it. *)

(** The chunks of at most [n] elements a sequence splits into, in order. *)
Equations? chunks {A : Type} (n : nat) (l : list A) : list (list A)
  by wf (List.length l) lt :=
chunks 0 _ := [];
chunks (S n) [] := [];
chunks (S n) (x :: l) := (x :: firstn n l) :: chunks (S n) (skipn n l).
Proof. simpl. rewrite length_skipn. lia. Qed.

(** A line is a command iff its first character is [/] and the next one
    is alphabetic. *)
Definition is_command (line : string) : bool :=
  match line with
  | String "/" (String c _) => isalpha c
  | _ => false
  end.

(** The sum of the lengths of the chunks the engine accepted. *)
Fixpoint accepted (tr : list event) : Z :=
  match tr with
  | [] => 0
  | Decode b rc :: tr' =>
      (if rc =? 0 then Z.of_nat (List.length (token b)) else 0) + accepted tr'
  | _ :: tr' => accepted tr'
  end.

(** The vector and the batch size of an evaluation fit [int]: the size is
    positive and the loop index cannot overflow. *)
Definition well_sized (tokens : list llama_token) (n_batch : Z) : Prop :=
  0 < n_batch /\ Z.of_nat (List.length tokens) + n_batch <= Int32.INT_MAX + 1.

Section Specification.

Context {E : Engine}.

(** The engine contract of the specification: the window is a fixed
    [int], and [decode] fails whenever the batch would end beyond it. *)
Class EngineContract : Prop := {
  window_is_int : forall c, 0 <= llama_n_ctx c <= Int32.INT_MAX;
  window_is_fixed :
    forall c b, llama_n_ctx (fst (llama_decode c b)) = llama_n_ctx c;
  decode_overflow_fails :
    forall c b, llama_n_ctx c < all_pos_0 b + n_tokens b ->
                snd (llama_decode c b) <> 0
}.

(** Context Accountant: [advance]. *)
Definition advance (n : Z) (st : state) : state :=
  set_n_past (n_past st + n) st.

(** Batched Evaluator: for each chunk, decode at the current position,
    fail with the overflow diagnostic when the engine refuses, advance by
    the chunk length otherwise. *)
Fixpoint evaluate_chunks (cs : list (list llama_token)) : M unit :=
  match cs with
  | [] => ret tt
  | c :: cs' =>
      st <- get ;;
      rc <- decode (llama_batch_get_one c (Z.of_nat (List.length c)) (n_past st) 0) ;;
      if rc =? 0 then
        modify (advance (Z.of_nat (List.length c))) ;;
        evaluate_chunks cs'
      else die_out_of_context
  end.

(** The engine calls of an evaluation that succeeds: one accepted
    [Decode] per chunk, each at the position where the previous one
    ended. *)
Fixpoint decode_events (pos : Z) (cs : list (list llama_token)) : list event :=
  match cs with
  | [] => []
  | c :: cs' =>
      Decode (llama_batch_get_one c (Z.of_nat (List.length c)) pos 0) 0
      :: decode_events (pos + Z.of_nat (List.length c)) cs'
  end.

(** A sequence of evaluations, each a vector of tokens and a batch size. *)
Fixpoint evaluations (fuel : nat) (evs : list (list llama_token * Z)) : M unit :=
  match evs with
  | [] => ret tt
  | (tokens, n_batch) :: evs' =>
      eval_tokens fuel tokens n_batch ;; evaluations fuel evs'
  end.

(** The accountant agrees with the engine between two states: the events
    in between are appended to the trace, [n_past] has grown by the
    lengths of the accepted chunks, and lies within the window, which has
    not changed. *)
Definition accounted (st st' : state) : Prop :=
  exists delta,
    trace st' = trace st ++ delta
    /\ n_past st' = n_past st + accepted delta
    /\ 0 <= n_past st' <= llama_n_ctx (g_ctx st')
    /\ llama_n_ctx (g_ctx st') = llama_n_ctx (g_ctx st).

(** Events that are all decodes the engine accepted. *)
Definition all_accepted (tr : list event) : Prop :=
  Forall (fun e => exists b, e = Decode b 0) tr.

(** The state after the REPL has prompted and [bestlineWithHistory] has
    returned [line]. *)
Definition prompted (line : option string) (st : state) : state :=
  emit (Write1 UNFOREGROUND)
    (emit (ReadLine line)
       (emit (Write1 BRIGHT_GREEN)
          (emit (Call "bestlineSetCompletionCallback")
             (emit (Call "bestlineLlamaMode") st)))).

(** The state the [stats] command leaves: the timing report has been
    emitted with log suppression off, log suppression is on, and nothing
    else has changed. *)
Definition after_stats (st : state) : state :=
  {| n_past := n_past st; g_model := g_model st; g_ctx := g_ctx st;
     g_got_sigint := g_got_sigint st; FLAG_log_disable := true;
     trace := trace st ++ [PrintTimings false (llama_print_timings (g_ctx st))];
     sigint_schedule := sigint_schedule st |}.

(** The trace only grows: [st'] has the events of [st] and then more; a
    computation appends when that holds of every state it is left in. *)
Definition extends (st st' : state) : Prop :=
  exists d, trace st' = trace st ++ d.

Definition appends {A : Type} (m : M A) : Prop :=
  forall st, extends st (final_state (m st)).

(** The session state once a turn has been rendered and tokenized: the
    events of the two calls are on the trace. *)
Definition rendered (tmpl : string) (chat : list llama_chat_msg)
  (add_ass add_special : bool) (st : state) : state :=
  let msg := llama_chat_apply_template (g_model st) tmpl chat add_ass in
  emit (Tokenize msg add_special true) (emit (ApplyTemplate chat add_ass msg) st).

(** The state of an overflow exit: the last event is the diagnostic, on
    the error stream, and it reports the token count and the model's
    training context size. *)
Definition overflow_state (st : state) : Prop :=
  exists tr,
    trace st = tr ++ [Stderr (overflow_message (n_past st)
                                (llama_n_ctx_train (g_model st)))].

(** An outcome the session may have: a return with a value in [Q], the
    overflow exit with status 1, or a loop cut off by its fuel; never the
    undefined access. *)
Definition sound {A : Type} (Q : A -> Prop) (o : outcome A) : Prop :=
  match o with
  | Ret a _ => Q a
  | Exit status st => status = 1 /\ overflow_state st
  | Undefined _ => False
  | OutOfFuel _ => True
  end.

Definition safe {A : Type} (Q : A -> Prop) (m : M A) : Prop :=
  forall st, sound Q (m st).

Definition any {A : Type} : A -> Prop := fun _ => True.

(** A computation keeps the accountant in agreement with the engine. *)
Definition accounts {A : Type} (m : M A) : Prop :=
  forall st,
    0 <= n_past st <= llama_n_ctx (g_ctx st) ->
    accounted st (final_state (m st)).

End Specification.

(** The exit status and the events of a run. *)
Definition status_of (r : result) : option Z :=
  match r with
  | Terminated status _ => Some status
  | _ => None
  end.

Definition events_of (r : result) : list event :=
  match r with
  | Terminated _ ev | Crashed ev | Unfinished ev => ev
  end.

(** Events a command may produce: text on standard output, and the
    engine's timing report. *)
Definition is_report (e : event) : Prop :=
  match e with
  | Stdout _ | PrintTimings _ _ => True
  | _ => False
  end.

(** ** The other functions of the translation unit *)

(** [basename]: the first loop drops trailing slashes down to one
    character, the second walks back to the slash before the name. *)
Fixpoint basename_end (path : string) (e : nat) : nat :=
  match e with
  | S e1 =>
      match e1 with
      | S _ =>
          if Ascii.eqb (char_at path e1) "/" then basename_end path e1 else e
      | O => e
      end
  | O => e
  end.

Fixpoint basename_start (path : string) (i : nat) : nat :=
  match i with
  | S i1 =>
      if negb (Ascii.eqb (char_at path i1) "/") then basename_start path i1
      else i
  | O => O
  end.

Definition basename (path : string) : string :=
  let e := String.length path in
  if (e =? 0)%nat then "."%string
  else
    let e := basename_end path e in
    let i := basename_start path (e - 1) in
    String.substring i (e - i) path.

(** [startswith(s, prefix)] of the C library. *)
Definition startswith (s prefix : string) : bool := String.prefix prefix s.

Definition kCompletions : list string := ["/context"; "/stats"]%string.

(** [on_completion]: [comp] is the list [bestlineAddCompletion] appends
    to. *)
Definition on_completion (line : string) (comp : list string) : list string :=
  fold_left
    (fun comp completion =>
       if startswith completion line then comp ++ [completion] else comp)
    kCompletions comp.

(** ** Further specification-level definitions *)

(** [k] slashes. *)
Fixpoint slashes (k : nat) : string :=
  match k with
  | O => EmptyString
  | S k' => String "/" (slashes k')
  end.

(** No character of the string satisfies [p]. *)
Fixpoint none_of (p : ascii -> bool) (s : string) : bool :=
  match s with
  | EmptyString => true
  | String c s' => negb (p c) && none_of p s'
  end.

Definition is_slash (c : ascii) : bool := Ascii.eqb c "/".

(** A word: not empty, no white space in it. *)
Definition is_word (w : string) : Prop :=
  w <> EmptyString /\ none_of isspace w = true.

(** The name of a command line: the first word after the [/]. *)
Definition command_name (line : string) : option string :=
  hd_error (extract_words (cstr_tail line) EmptyString).

(** The pieces flushed to standard output. *)
Fixpoint flushes (tr : list event) : Z :=
  match tr with
  | [] => 0
  | Flush :: tr' => 1 + flushes tr'
  | _ :: tr' => flushes tr'
  end.

(** The calls that release the engine's resources. *)
Definition teardown : list event :=
  [Call "llama_sampling_free"; Call "llama_free"; Call "llama_free_model";
   Call "llama_backend_free"].

Definition is_teardown (e : event) : bool :=
  match e with
  | Call name =>
      String.eqb name "llama_sampling_free" || String.eqb name "llama_free"
      || String.eqb name "llama_free_model"
      || String.eqb name "llama_backend_free"
  | _ => false
  end.

Definition not_teardown (e : event) : bool := negb (is_teardown e).

Section Invariants.

Context {E : Engine}.

(** A computation releases the resources when it returns and only then:
    the events it adds are free of tear-down calls, but for the four of
    them, in order, at the end of a run that returns. *)
Definition releases {A : Type} (m : M A) : Prop :=
  forall st,
    exists d,
      trace (final_state (m st))
      = trace st ++ d ++ match m st with Ret _ _ => teardown | _ => [] end
      /\ forallb not_teardown d = true.

(** A computation adds only events that satisfy [P], wherever it is
    left. *)
Definition keeps {A : Type} (P : event -> bool) (m : M A) : Prop :=
  forall st,
    exists d, trace (final_state (m st)) = trace st ++ d
              /\ forallb P d = true.

(** A computation entered with log suppression on is left, wherever it is
    left, with log suppression on. *)
Definition suppressing {A : Type} (m : M A) : Prop :=
  forall st,
    FLAG_log_disable st = true ->
    FLAG_log_disable (final_state (m st)) = true.

(** The statements of [session] after the REPL. *)
Definition release : M Z :=
  call "llama_sampling_free" ;;
  call "llama_free" ;;
  call "llama_free_model" ;;
  call "llama_backend_free" ;;
  ret 0.

(** An event that is not the decode of anything but one token that is
    not an end of generation for the model. *)
Definition no_end_token (m : llama_model) (e : event) : Prop :=
  match e with
  | Decode b _ =>
      exists id, token b = [id] /\ llama_token_is_eog m id = false
  | _ => True
  end.

(** A computation started inside the window is not cut off by the fuel,
    and does not run into the undefined access. *)
Definition finishes {A : Type} (m : M A) : Prop :=
  forall st,
    0 <= n_past st <= llama_n_ctx (g_ctx st) ->
    (exists a st', m st = Ret a st') \/ (exists st', m st = Exit 1 st').

End Invariants.

(** * Verification *)

(** ** Machine integers *)

Lemma wrap_id (z : Z) : Int32.in_range z -> Int32.wrap z = z.
Proof.
  unfold Int32.in_range, Int32.INT_MIN, Int32.INT_MAX, Int32.wrap. intros Hz.
  rewrite Z.mod_small by lia. lia.
Qed.

Lemma wrap_in_range (z : Z) : Int32.wrap z <= Int32.INT_MAX.
Proof.
  unfold Int32.INT_MAX, Int32.wrap.
  pose proof (Z.mod_pos_bound (z + 2147483648) 4294967296 ltac:(lia)). lia.
Qed.

Lemma add_id (a b : Z) : Int32.in_range (a + b) -> Int32.add a b = a + b.
Proof. apply wrap_id. Qed.

Lemma sub_id (a b : Z) : Int32.in_range (a - b) -> Int32.sub a b = a - b.
Proof. apply wrap_id. Qed.

Lemma int_size_id (tokens : list llama_token) :
  Z.of_nat (List.length tokens) <= Int32.INT_MAX ->
  int_size tokens = Z.of_nat (List.length tokens).
Proof.
  intros H. apply wrap_id. unfold Int32.in_range, Int32.INT_MIN. lia.
Qed.

(** ** The chunk the loop hands to the engine *)

Lemma tokens_at_chunk (tokens : list llama_token) (n_batch i : Z) :
  0 < n_batch -> 0 <= i < Z.of_nat (List.length tokens) ->
  let n := Z.of_nat (List.length tokens) - i in
  let n_eval := if n >? n_batch then n_batch else n in
  let c := firstn (Z.to_nat n_batch) (skipn (Z.to_nat i) tokens) in
  tokens_at tokens i n_eval = c /\ Z.of_nat (List.length c) = n_eval.
Proof.
  intros Hb Hi n n_eval c. subst n n_eval c. unfold tokens_at.
  assert (Hlen : List.length (skipn (Z.to_nat i) tokens)
                 = Z.to_nat (Z.of_nat (List.length tokens) - i)).
  { rewrite length_skipn. lia. }
  destruct (Z.gtb_spec (Z.of_nat (List.length tokens) - i) n_batch) as [Hgt | Hle].
  - split; [reflexivity |]. rewrite length_firstn, Hlen. lia.
  - rewrite <- Hlen at 1. rewrite firstn_all.
    rewrite firstn_all2 by lia. split; [reflexivity | lia].
Qed.

(** ** Chunks *)

Lemma chunks_nil {A : Type} (n : nat) : chunks n (@nil A) = [].
Proof. destruct n; simp chunks; reflexivity. Qed.

Lemma chunks_cons {A : Type} (n : nat) (l : list A) :
  l <> [] ->
  chunks (S n) l = firstn (S n) l :: chunks (S n) (skipn (S n) l).
Proof.
  destruct l as [| x l]; [congruence |]. intros _. simp chunks. reflexivity.
Qed.

Lemma concat_chunks {A : Type} (n : nat) (l : list A) :
  (0 < n)%nat -> List.concat (chunks n l) = l.
Proof.
  funelim (chunks n l); simp chunks; intros Hn.
  - lia.
  - reflexivity.
  - cbn [List.concat]. rewrite H by lia. cbn [app]. now rewrite firstn_skipn.
Qed.

Lemma Forall_chunks {A : Type} (n : nat) (l : list A) :
  Forall (fun c => (0 < List.length c <= n)%nat) (chunks n l).
Proof.
  funelim (chunks n l); simp chunks.
  - constructor.
  - constructor.
  - constructor; [| assumption].
    cbn [List.length]. rewrite length_firstn. lia.
Qed.

Section Evaluator.

Context {E : Engine}.

(** One iteration of the loop of [eval_tokens]. *)
Lemma eval_tokens_loop_step (fuel : nat) (tokens : list llama_token)
  (n_batch i : Z) (st : state) :
  well_sized tokens n_batch -> 0 <= i < Z.of_nat (List.length tokens) ->
  let c := firstn (Z.to_nat n_batch) (skipn (Z.to_nat i) tokens) in
  let b := llama_batch_get_one c (Z.of_nat (List.length c)) (n_past st) 0 in
  let r := llama_decode (g_ctx st) b in
  let st1 := emit (Decode b (snd r)) (set_g_ctx (fst r) st) in
  eval_tokens_loop (S fuel) tokens n_batch (int_size tokens) i st =
    if snd r =? 0
    then eval_tokens_loop fuel tokens n_batch (int_size tokens) (i + n_batch)
           (set_n_past (Int32.add (n_past st) (Z.of_nat (List.length c))) st1)
    else Exit 1 (emit (Stderr (overflow_message (n_past st)
                                 (llama_n_ctx_train (g_model st)))) st1).
Proof.
  intros [Hb Hsz] Hi c b r st1.
  assert (HN : int_size tokens = Z.of_nat (List.length tokens)).
  { apply int_size_id. lia. }
  cbn [eval_tokens_loop]. rewrite HN.
  destruct (Z.ltb_spec i (Z.of_nat (List.length tokens))) as [_ | Hge]; [| lia].
  rewrite sub_id by (unfold Int32.in_range, Int32.INT_MIN; lia).
  destruct (tokens_at_chunk tokens n_batch i Hb Hi) as [Hc Hn].
  cbv zeta in Hc, Hn. rewrite Hc. rewrite <- Hn. fold c.
  rewrite (add_id i n_batch) by (unfold Int32.in_range, Int32.INT_MIN; lia).
  unfold bind, get, decode. fold b. fold r.
  destruct r as [ctx' rc] eqn:Hr. cbn [fst snd] in *.
  subst st1. destruct (rc =? 0); reflexivity.
Qed.

Lemma int_size_bounds (tokens : list llama_token) :
  int_size tokens <= Z.of_nat (List.length tokens)
  /\ int_size tokens <= Int32.INT_MAX.
Proof.
  unfold int_size. split; [| apply wrap_in_range].
  unfold Int32.wrap.
  pose proof (Z.mod_le (Z.of_nat (List.length tokens) + 2147483648) 4294967296
                ltac:(lia) ltac:(lia)).
  lia.
Qed.

(** One iteration of the loop, whatever the size of the vector: the
    index is below [(int)tokens.size()] and does not overflow. *)
Lemma eval_tokens_loop_step_int (fuel : nat) (tokens : list llama_token)
  (n_batch i : Z) (st : state) :
  0 < n_batch -> 0 <= i < int_size tokens -> i + n_batch <= Int32.INT_MAX ->
  let n_eval := Z.min (int_size tokens - i) n_batch in
  let c := tokens_at tokens i n_eval in
  let b := llama_batch_get_one c n_eval (n_past st) 0 in
  let r := llama_decode (g_ctx st) b in
  let st1 := emit (Decode b (snd r)) (set_g_ctx (fst r) st) in
  Z.of_nat (List.length c) = n_eval
  /\ eval_tokens_loop (S fuel) tokens n_batch (int_size tokens) i st =
       if snd r =? 0
       then eval_tokens_loop fuel tokens n_batch (int_size tokens) (i + n_batch)
              (set_n_past (Int32.add (n_past st) n_eval) st1)
       else Exit 1 (emit (Stderr (overflow_message (n_past st)
                                    (llama_n_ctx_train (g_model st)))) st1).
Proof.
  intros Hb Hi Hov n_eval c b r st1.
  destruct (int_size_bounds tokens) as [Hlen Hmax].
  split.
  { subst c. unfold tokens_at. rewrite length_firstn, length_skipn. lia. }
  cbn [eval_tokens_loop].
  destruct (Z.ltb_spec i (int_size tokens)) as [_ | Hge]; [| lia].
  rewrite sub_id by (unfold Int32.in_range, Int32.INT_MIN; lia).
  replace (if int_size tokens - i >? n_batch then n_batch
           else int_size tokens - i) with n_eval
    by (subst n_eval; destruct (Z.gtb_spec (int_size tokens - i) n_batch); lia).
  rewrite (add_id i n_batch) by (unfold Int32.in_range, Int32.INT_MIN; lia).
  unfold bind, get, decode. fold c. fold b. fold r.
  destruct r as [ctx' rc] eqn:Hr. cbn [fst snd] in *.
  subst st1. destruct (rc =? 0); reflexivity.
Qed.

Lemma evaluate_chunks_cons (c : list llama_token) (cs : list (list llama_token))
  (st : state) :
  let b := llama_batch_get_one c (Z.of_nat (List.length c)) (n_past st) 0 in
  let r := llama_decode (g_ctx st) b in
  let st1 := emit (Decode b (snd r)) (set_g_ctx (fst r) st) in
  evaluate_chunks (c :: cs) st =
    if snd r =? 0
    then evaluate_chunks cs (advance (Z.of_nat (List.length c)) st1)
    else Exit 1 (emit (Stderr (overflow_message (n_past st)
                                 (llama_n_ctx_train (g_model st)))) st1).
Proof.
  intros b r st1. cbn [evaluate_chunks]. unfold bind, get, decode.
  fold b. fold r. destruct r as [ctx' rc] eqn:Hr. cbn [fst snd] in *.
  subst st1. destruct (rc =? 0); reflexivity.
Qed.

(** The loop computes the specification's evaluator on the chunks of what
    is left of the vector. *)
Lemma eval_tokens_loop_chunks (fuel : nat) (tokens : list llama_token)
  (n_batch : Z) :
  well_sized tokens n_batch ->
  forall (i : Z) (st : state),
    0 <= i -> 0 <= n_past st ->
    n_past st + Z.max 0 (Z.of_nat (List.length tokens) - i) <= Int32.INT_MAX ->
    (Z.to_nat (Z.of_nat (List.length tokens) - i) < fuel)%nat ->
    eval_tokens_loop fuel tokens n_batch (int_size tokens) i st =
    evaluate_chunks (chunks (Z.to_nat n_batch) (skipn (Z.to_nat i) tokens)) st.
Proof.
  intros Hws. pose proof Hws as [Hb Hsz].
  induction fuel as [| fuel IH]; intros i st Hi Hp Hmax Hfuel; [lia |].
  destruct (Z.lt_ge_cases i (Z.of_nat (List.length tokens))) as [Hlt | Hge].
  - rewrite eval_tokens_loop_step by (auto; lia).
    assert (Hne : skipn (Z.to_nat i) tokens <> []).
    { intros Hnil. apply (f_equal (@List.length _)) in Hnil.
      rewrite length_skipn in Hnil. cbn in Hnil. lia. }
    destruct (Z.to_nat n_batch) as [| n] eqn:Hn; [lia |].
    rewrite (chunks_cons n _ Hne), evaluate_chunks_cons.
    rewrite skipn_skipn, <- Hn. rewrite <- Hn in IH.
    replace (Z.to_nat n_batch + Z.to_nat i)%nat with (Z.to_nat (i + n_batch)) by lia.
    set (c := firstn (Z.to_nat n_batch) (skipn (Z.to_nat i) tokens)).
    assert (Hc : Z.of_nat (List.length c) <= Z.of_nat (List.length tokens) - i).
    { subst c. rewrite length_firstn, length_skipn. lia. }
    assert (Hc' : Z.of_nat (List.length c) = n_batch
                  \/ Z.of_nat (List.length tokens) <= i + n_batch).
    { subst c. rewrite length_firstn, length_skipn. lia. }
    destruct (snd _ =? 0); [| reflexivity].
    rewrite add_id by (unfold Int32.in_range, Int32.INT_MIN; lia).
    unfold advance. apply IH; cbn; lia.
  - rewrite skipn_all2 by lia. rewrite chunks_nil.
    cbn [eval_tokens_loop evaluate_chunks].
    rewrite int_size_id by lia.
    destruct (Z.ltb_spec i (Z.of_nat (List.length tokens))); [lia | reflexivity].
Qed.

Lemma evaluate_chunks_outcome (cs : list (list llama_token)) (st : state) :
  (exists st', evaluate_chunks cs st = Ret tt st'
               /\ n_past st' = n_past st + Z.of_nat (List.length (List.concat cs))
               /\ trace st' = trace st ++ decode_events (n_past st) cs)
  \/ (exists st', evaluate_chunks cs st = Exit 1 st').
Proof.
  revert st. induction cs as [| c cs IH]; intros st.
  - left. exists st. cbn. rewrite Z.add_0_r, app_nil_r. auto.
  - rewrite evaluate_chunks_cons.
    destruct (Z.eqb_spec (snd (llama_decode (g_ctx st)
                (llama_batch_get_one c (Z.of_nat (List.length c)) (n_past st) 0))) 0)
      as [Hrc | Hrc]; [| right; eauto].
    rewrite Hrc.
    destruct (IH (advance (Z.of_nat (List.length c))
                    (emit (Decode (llama_batch_get_one c (Z.of_nat (List.length c))
                                     (n_past st) 0) 0)
                       (set_g_ctx (fst (llama_decode (g_ctx st)
                          (llama_batch_get_one c (Z.of_nat (List.length c))
                             (n_past st) 0))) st))))
      as [(st' & Hev & Hn & Htr) | (st' & Hev)]; [left | right; eauto].
    exists st'. split; [exact Hev |]. cbn in Hn, Htr. split.
    + rewrite Hn. cbn [List.concat]. rewrite length_app. lia.
    + rewrite Htr. cbn [decode_events]. rewrite <- app_assoc. reflexivity.
Qed.

(** C3. For every vector of tokens and every positive batch size (both
    within the range of [int], as the position reached is), [eval_tokens]
    splits the vector, in order, into consecutive chunks of at most
    [n_batch] tokens, none empty; it does on them what the specification's
    evaluator does: decode each chunk at the current [n_past], advance
    [n_past] by the chunk length after each success, stop with the
    overflow exit at the first failure; and when every chunk is accepted
    it returns with [n_past] advanced by the length of the vector, having
    issued one decode per chunk at consecutive positions. *)
Theorem eval_tokens_partitions (fuel : nat) (tokens : list llama_token)
  (n_batch : Z) (st : state) :
  well_sized tokens n_batch ->
  0 <= n_past st ->
  n_past st + Z.of_nat (List.length tokens) <= Int32.INT_MAX ->
  (List.length tokens < fuel)%nat ->
  let cs := chunks (Z.to_nat n_batch) tokens in
  List.concat cs = tokens
  /\ Forall (fun c => 0 < Z.of_nat (List.length c) <= n_batch) cs
  /\ eval_tokens fuel tokens n_batch st = evaluate_chunks cs st
  /\ ((exists st', eval_tokens fuel tokens n_batch st = Ret tt st'
                   /\ n_past st' = n_past st + Z.of_nat (List.length tokens)
                   /\ trace st' = trace st ++ decode_events (n_past st) cs)
      \/ (exists st', eval_tokens fuel tokens n_batch st = Exit 1 st')).
Proof.
  intros Hws Hp Hmax Hfuel cs. pose proof Hws as [Hb _].
  assert (Hcat : List.concat cs = tokens) by (apply concat_chunks; lia).
  assert (Hev : eval_tokens fuel tokens n_batch st = evaluate_chunks cs st).
  { unfold eval_tokens.
    rewrite (eval_tokens_loop_chunks fuel tokens n_batch Hws 0 st); try lia.
    reflexivity. }
  split; [exact Hcat |]. split.
  - eapply Forall_impl; [| apply Forall_chunks]. cbn. intros c Hc. lia.
  - split; [exact Hev |]. rewrite Hev.
    destruct (evaluate_chunks_outcome cs st) as [(st' & H1 & H2 & H3) | H];
      [left | right; exact H].
    exists st'. rewrite Hcat in H2. auto.
Qed.

(** ** Under the engine contract *)

Lemma accepted_app (tr1 tr2 : list event) :
  accepted (tr1 ++ tr2) = accepted tr1 + accepted tr2.
Proof.
  induction tr1 as [| e tr1 IH]; [reflexivity |].
  destruct e; cbn [app accepted]; rewrite IH; lia.
Qed.

Lemma final_state_bind {A B : Type} (m : M A) (k : A -> M B) (st : state) :
  (exists a st1, m st = Ret a st1
                 /\ final_state (bind m k st) = final_state (k a st1))
  \/ ((forall a st1, m st <> Ret a st1)
      /\ final_state (bind m k st) = final_state (m st)).
Proof.
  unfold bind. destruct (m st) as [a st1 | c st1 | st1 | st1].
  - left. eauto.
  - right. split; [intros; discriminate | reflexivity].
  - right. split; [intros; discriminate | reflexivity].
  - right. split; [intros; discriminate | reflexivity].
Qed.

Section Contract.

Context {C : EngineContract}.

(** A batch the engine accepts ends inside the window. *)
Lemma accepted_fits (c : llama_context) (b : llama_batch) :
  snd (llama_decode c b) = 0 -> all_pos_0 b + n_tokens b <= llama_n_ctx c.
Proof.
  intros Hrc. destruct (Z.le_gt_cases (all_pos_0 b + n_tokens b) (llama_n_ctx c))
    as [Hle | Hgt]; [exact Hle |].
  exfalso. apply (decode_overflow_fails c b); [lia | exact Hrc].
Qed.

Lemma accounted_refl (st : state) :
  0 <= n_past st <= llama_n_ctx (g_ctx st) -> accounted st st.
Proof.
  intros H. exists []. rewrite app_nil_r. cbn. repeat split; lia.
Qed.

Lemma accounted_trans (st1 st2 st3 : state) :
  accounted st1 st2 -> accounted st2 st3 -> accounted st1 st3.
Proof.
  intros (d1 & T1 & N1 & B1 & W1) (d2 & T2 & N2 & B2 & W2).
  exists (d1 ++ d2). rewrite T2, T1, app_assoc, accepted_app.
  repeat split; lia.
Qed.

Lemma eval_tokens_loop_accounted (tokens : list llama_token) (n_batch : Z) :
  well_sized tokens n_batch ->
  forall (fuel : nat) (i : Z) (st : state),
    0 <= i -> 0 <= n_past st <= llama_n_ctx (g_ctx st) ->
    accounted st
      (final_state (eval_tokens_loop fuel tokens n_batch (int_size tokens) i st)).
Proof.
  intros Hws. pose proof Hws as [Hb Hsz].
  induction fuel as [| fuel IH]; intros i st Hi Hp.
  - cbn. apply accounted_refl, Hp.
  - destruct (Z.lt_ge_cases i (Z.of_nat (List.length tokens))) as [Hlt | Hge].
    + rewrite eval_tokens_loop_step by (auto; lia).
      set (c := firstn (Z.to_nat n_batch) (skipn (Z.to_nat i) tokens)).
      set (b := llama_batch_get_one c (Z.of_nat (List.length c)) (n_past st) 0).
      pose proof (window_is_fixed (g_ctx st) b) as Hw.
      pose proof (window_is_int (g_ctx st)) as Hint.
      destruct (Z.eqb_spec (snd (llama_decode (g_ctx st) b)) 0) as [Hrc | Hrc].
      * pose proof (accepted_fits _ _ Hrc) as Hfit. cbn in Hfit.
        rewrite add_id by (unfold Int32.in_range, Int32.INT_MIN; lia).
        eapply accounted_trans; [| apply IH; cbn; lia].
        exists [Decode b (snd (llama_decode (g_ctx st) b))].
        cbn. rewrite Hrc. cbn. repeat split; lia.
      * exists [Decode b (snd (llama_decode (g_ctx st) b));
                Stderr (overflow_message (n_past st)
                          (llama_n_ctx_train (g_model st)))].
        cbn. rewrite <- app_assoc. cbn.
        destruct (Z.eqb_spec (snd (llama_decode (g_ctx st) b)) 0); [lia |].
        repeat split; lia.
    + cbn [eval_tokens_loop]. rewrite int_size_id by lia.
      destruct (Z.ltb_spec i (Z.of_nat (List.length tokens))); [lia |].
      cbn. apply accounted_refl, Hp.
Qed.

Lemma evaluations_accounted (fuel : nat) (evs : list (list llama_token * Z)) :
  Forall (fun ev => well_sized (fst ev) (snd ev)) evs ->
  forall st : state,
    0 <= n_past st <= llama_n_ctx (g_ctx st) ->
    accounted st (final_state (evaluations fuel evs st)).
Proof.
  induction 1 as [| [tokens n_batch] evs Hws _ IH]; intros st Hp.
  - cbn. apply accounted_refl, Hp.
  - cbn [evaluations]. cbn [fst snd] in Hws.
    pose proof (eval_tokens_loop_accounted tokens n_batch Hws fuel 0 st
                  ltac:(lia) Hp) as Hacc.
    fold (eval_tokens fuel tokens n_batch st) in Hacc.
    destruct (final_state_bind (eval_tokens fuel tokens n_batch)
                (fun _ => evaluations fuel evs) st)
      as [(a & st1 & Hret & Hfin) | [_ Hfin]]; rewrite Hfin.
    + rewrite Hret in Hacc. cbn in Hacc.
      eapply accounted_trans; [exact Hacc |]. apply IH.
      destruct Hacc as (_ & _ & _ & HB & _). exact HB.
    + exact Hacc.
Qed.

(** [eval_tokens] ends when the fuel exceeds the number of tokens. *)
Lemma eval_tokens_loop_terminates (tokens : list llama_token) (n_batch : Z) :
  well_sized tokens n_batch ->
  forall (fuel : nat) (i : Z) (st : state),
    0 <= i ->
    (Z.to_nat (Z.of_nat (List.length tokens) - i) < fuel)%nat ->
    (exists st', eval_tokens_loop fuel tokens n_batch (int_size tokens) i st
                 = Ret tt st')
    \/ (exists st', eval_tokens_loop fuel tokens n_batch (int_size tokens) i st
                    = Exit 1 st').
Proof.
  intros Hws. pose proof Hws as [Hb Hsz].
  induction fuel as [| fuel IH]; intros i st Hi Hfuel; [lia |].
  destruct (Z.lt_ge_cases i (Z.of_nat (List.length tokens))) as [Hlt | Hge].
  - rewrite eval_tokens_loop_step by (auto; lia).
    destruct (snd _ =? 0); [apply IH; lia | right; eauto].
  - cbn [eval_tokens_loop]. rewrite int_size_id by lia.
    destruct (Z.ltb_spec i (Z.of_nat (List.length tokens))); [lia |].
    left. eexists. reflexivity.
Qed.

Lemma evaluations_terminate (fuel : nat) (evs : list (list llama_token * Z)) :
  Forall (fun ev => well_sized (fst ev) (snd ev)) evs ->
  Forall (fun ev => (List.length (fst ev) < fuel)%nat) evs ->
  forall st : state,
    (exists st', evaluations fuel evs st = Ret tt st')
    \/ (exists st', evaluations fuel evs st = Exit 1 st').
Proof.
  induction 1 as [| [tokens n_batch] evs Hws _ IH]; intros Hf st.
  - left. exists st. reflexivity.
  - inversion Hf as [| ? ? Hf1 Hf2]; subst. cbn [fst snd] in *.
    cbn [evaluations]. unfold bind, eval_tokens.
    destruct (eval_tokens_loop_terminates tokens n_batch Hws fuel 0 st
                ltac:(lia) ltac:(lia)) as [[st' Hr] | [st' Hr]]; rewrite Hr.
    + apply IH, Hf2.
    + right. eauto.
Qed.

(** C1. Under the engine contract (the window is a fixed [int], decode
    fails whenever the batch would end beyond it), take any sequence of
    evaluations with positive batch sizes and vectors that fit [int],
    started in a state whose [n_past] is inside the window, and stop it
    anywhere: after any number of loop tests of an evaluation (the fuel),
    at its return or at its exit.  In the state reached, [n_past] is the
    [n_past] of the start plus the sum of the lengths of the chunks the
    engine accepted since, and it is at most the configured window, which
    is the one of the start.  With fuel above the length of every vector
    the sequence runs to its end or to the overflow exit. *)
Theorem consumed_tokens_accounted (fuel : nat)
  (evs : list (list llama_token * Z)) (st : state) :
  Forall (fun ev => well_sized (fst ev) (snd ev)) evs ->
  0 <= n_past st <= llama_n_ctx (g_ctx st) ->
  let o := evaluations fuel evs st in
  (exists delta,
      trace (final_state o) = trace st ++ delta
      /\ n_past (final_state o) = n_past st + accepted delta)
  /\ n_past (final_state o) <= llama_n_ctx (g_ctx (final_state o))
  /\ llama_n_ctx (g_ctx (final_state o)) = llama_n_ctx (g_ctx st)
  /\ (Forall (fun ev => (List.length (fst ev) < fuel)%nat) evs ->
      (exists st', o = Ret tt st') \/ (exists st', o = Exit 1 st')).
Proof.
  intros Hws Hp o.
  destruct (evaluations_accounted fuel evs Hws st Hp) as (delta & T & N & B & W).
  fold o in T, N, B, W.
  split; [exists delta; auto |]. split; [lia |]. split; [exact W |].
  intros Hf. apply evaluations_terminate; assumption.
Qed.

(** An evaluation of more tokens than the window has room for ends in the
    overflow exit, after the chunks the engine accepted. *)
Lemma eval_tokens_loop_overflow (tokens : list llama_token) (n_batch : Z) :
  well_sized tokens n_batch ->
  forall (fuel : nat) (i : Z) (st : state),
    0 <= i -> 0 <= n_past st <= llama_n_ctx (g_ctx st) ->
    llama_n_ctx (g_ctx st) - n_past st < Z.of_nat (List.length tokens) - i ->
    (Z.to_nat (Z.of_nat (List.length tokens) - i) < fuel)%nat ->
    exists st' ok b rc,
      eval_tokens_loop fuel tokens n_batch (int_size tokens) i st = Exit 1 st'
      /\ trace st' =
           trace st ++ ok
           ++ [Decode b rc;
               Stderr (overflow_message (n_past st')
                         (llama_n_ctx_train (g_model st')))]
      /\ all_accepted ok /\ rc <> 0
      /\ all_pos_0 b = n_past st'
      /\ n_past st' = n_past st + accepted ok.
Proof.
  intros Hws. pose proof Hws as [Hb Hsz].
  induction fuel as [| fuel IH]; intros i st Hi Hp Hroom Hfuel; [lia |].
  pose proof (window_is_int (g_ctx st)) as Hint.
  assert (Hlt : i < Z.of_nat (List.length tokens)) by lia.
  rewrite eval_tokens_loop_step by (auto; lia).
  set (c := firstn (Z.to_nat n_batch) (skipn (Z.to_nat i) tokens)).
  set (b := llama_batch_get_one c (Z.of_nat (List.length c)) (n_past st) 0).
  assert (Hc : Z.of_nat (List.length c) = n_batch
               \/ Z.of_nat (List.length c) = Z.of_nat (List.length tokens) - i).
  { subst c. rewrite length_firstn, length_skipn. lia. }
  pose proof (window_is_fixed (g_ctx st) b) as Hw.
  destruct (Z.eqb_spec (snd (llama_decode (g_ctx st) b)) 0) as [Hrc | Hrc].
  - pose proof (accepted_fits _ _ Hrc) as Hfit. cbn in Hfit.
    rewrite add_id by (unfold Int32.in_range, Int32.INT_MIN; lia).
    edestruct (IH (i + n_batch)) as (st' & ok & b' & rc' & Hev & T & A & R & P & N);
      [ | | | | rewrite Hev ]; try (cbn; lia).
    exists st', (Decode b 0 :: ok), b', rc'. cbn in T, N.
    split; [reflexivity |]. split.
    { rewrite T, Hrc, <- app_assoc. reflexivity. }
    split; [constructor; [eauto | exact A] |].
    split; [exact R |]. split; [exact P |].
    cbn. lia.
  - eexists _, [], b, _. split; [reflexivity |]. cbn. rewrite <- app_assoc. cbn.
    repeat split; try assumption; try constructor; lia.
Qed.

(** C2. Under the engine contract, evaluating a vector longer than the
    remaining capacity (from an [n_past] inside the window, with a
    positive batch size, all within [int]) ends in the overflow exit and nothing
    else: the events it adds are decodes the engine accepted, then the
    one decode it refused, then the one diagnostic.  [n_past] has grown by
    the lengths of the accepted chunks only; it is the position of the
    refused chunk and the count the diagnostic reports. *)
Theorem overflow_raised_once (fuel : nat) (tokens : list llama_token)
  (n_batch : Z) (st : state) :
  well_sized tokens n_batch ->
  0 <= n_past st <= llama_n_ctx (g_ctx st) ->
  llama_n_ctx (g_ctx st) - n_past st < Z.of_nat (List.length tokens) ->
  (List.length tokens < fuel)%nat ->
  exists st' ok b rc,
    eval_tokens fuel tokens n_batch st = Exit 1 st'
    /\ trace st' =
         trace st ++ ok
         ++ [Decode b rc;
             Stderr (overflow_message (n_past st')
                       (llama_n_ctx_train (g_model st')))]
    /\ all_accepted ok /\ rc <> 0
    /\ all_pos_0 b = n_past st'
    /\ n_past st' = n_past st + accepted ok.
Proof.
  intros Hws Hp Hroom Hfuel. unfold eval_tokens.
  apply eval_tokens_loop_overflow; auto; lia.
Qed.

(** The account holds for vectors of any size when the window leaves room
    for one batch below [INT_MAX]: the index then follows [n_past]. *)
Lemma eval_tokens_loop_accounted_window (tokens : list llama_token)
  (n_batch : Z) :
  0 < n_batch ->
  (forall c, llama_n_ctx c + n_batch <= Int32.INT_MAX) ->
  forall (fuel : nat) (i : Z) (st : state),
    0 <= i -> (i < int_size tokens -> i <= n_past st) ->
    0 <= n_past st <= llama_n_ctx (g_ctx st) ->
    accounted st
      (final_state (eval_tokens_loop fuel tokens n_batch (int_size tokens) i st)).
Proof.
  intros Hb Hwin.
  induction fuel as [| fuel IH]; intros i st Hi Hip Hp.
  - cbn. apply accounted_refl, Hp.
  - destruct (Z.lt_ge_cases i (int_size tokens)) as [Hlt | Hge].
    + pose proof (Hwin (g_ctx st)) as Hw0.
      destruct (eval_tokens_loop_step_int fuel tokens n_batch i st Hb
                  ltac:(lia) ltac:(lia)) as [Hlen Hstep].
      cbv zeta in Hlen, Hstep. rewrite Hstep. clear Hstep.
      set (n_eval := Z.min (int_size tokens - i) n_batch) in *.
      set (c := tokens_at tokens i n_eval) in *.
      set (b := llama_batch_get_one c n_eval (n_past st) 0).
      pose proof (window_is_fixed (g_ctx st) b) as Hw.
      destruct (Z.eqb_spec (snd (llama_decode (g_ctx st) b)) 0) as [Hrc | Hrc].
      * pose proof (accepted_fits _ _ Hrc) as Hfit. cbn in Hfit.
        rewrite add_id by (unfold Int32.in_range, Int32.INT_MIN; lia).
        eapply accounted_trans; [| apply IH; cbn; lia].
        exists [Decode b (snd (llama_decode (g_ctx st) b))].
        cbn. rewrite Hrc, Hlen. cbn. repeat split; lia.
      * exists [Decode b (snd (llama_decode (g_ctx st) b));
                Stderr (overflow_message (n_past st)
                          (llama_n_ctx_train (g_model st)))].
        cbn. rewrite <- app_assoc. cbn.
        destruct (Z.eqb_spec (snd (llama_decode (g_ctx st) b)) 0); [lia |].
        repeat split; lia.
    + cbn [eval_tokens_loop].
      destruct (Z.ltb_spec i (int_size tokens)); [lia |].
      cbn. apply accounted_refl, Hp.
Qed.

End Contract.

End Evaluator.

(** The batches [5;6], [7;8], [9] at positions 3, 5, 7 of a window of 100. *)
Lemma eval_tokens_partitions_witness :
  let st := Toy.state_at 100 true 3 true [] in
  let cs := chunks 2 [5; 6; 7; 8; 9] in
  List.concat cs = [5; 6; 7; 8; 9]
  /\ Forall (fun c => 0 < Z.of_nat (List.length c) <= 2) cs
  /\ eval_tokens 6 [5; 6; 7; 8; 9] 2 st = evaluate_chunks cs st
  /\ ((exists st', eval_tokens 6 [5; 6; 7; 8; 9] 2 st = Ret tt st'
                   /\ n_past st' = n_past st + 5
                   /\ trace st' = trace st ++ decode_events (n_past st) cs)
      \/ (exists st', eval_tokens 6 [5; 6; 7; 8; 9] 2 st = Exit 1 st')).
Proof.
  intros st.
  apply (eval_tokens_partitions 6 [5; 6; 7; 8; 9] 2 st).
  - unfold well_sized, Int32.INT_MAX. simpl. lia.
  - simpl. lia.
  - unfold Int32.INT_MAX. simpl. lia.
  - simpl. lia.
Defined.

(** The small engine honours the contract. *)
Lemma toy_contract (n_ctx : Z) (add_bos : bool) (script : list llama_token) :
  0 <= n_ctx <= Int32.INT_MAX ->
  @EngineContract (Toy.engine n_ctx add_bos script).
Proof.
  intros Hn. split; cbn.
  - intros _. exact Hn.
  - reflexivity.
  - intros c b Hb. unfold Toy.decode.
    destruct (Z.leb_spec (all_pos_0 b + n_tokens b) n_ctx); [lia |].
    rewrite andb_false_r. cbn. lia.
Qed.

Lemma toy_window_10 : 0 <= 10 <= Int32.INT_MAX.
Proof. unfold Int32.INT_MAX. lia. Qed.

(** The scenario of the specification: a window of 10, a system turn of 4
    tokens, a user turn of 5, then generated tokens one at a time. *)
Lemma consumed_tokens_accounted_witness :
  let E := Toy.engine 10 true [] in
  let st := Toy.state_at 10 true 0 true [] in
  let evs := [([1; 115; 121; 115], 4); ([104; 101; 108; 111; 62], 4);
              ([104], 1); ([105], 1)] in
  let o := @evaluations E 10 evs st in
  (exists delta,
      trace (final_state o) = trace st ++ delta
      /\ n_past (final_state o) = n_past st + accepted delta)
  /\ n_past (final_state o) <= llama_n_ctx (g_ctx (final_state o))
  /\ llama_n_ctx (g_ctx (final_state o)) = llama_n_ctx (g_ctx st)
  /\ ((exists st', o = Ret tt st') \/ (exists st', o = Exit 1 st')).
Proof.
  intros E st evs.
  assert (Hws : Forall (fun ev => well_sized (fst ev) (snd ev)) evs).
  { repeat (apply Forall_cons || apply Forall_nil);
      unfold well_sized, Int32.INT_MAX; simpl; lia. }
  assert (Hp : 0 <= n_past st <= llama_n_ctx (g_ctx st)) by (simpl; lia).
  assert (Hf : Forall (fun ev => (List.length (fst ev) < 10)%nat) evs).
  { repeat (apply Forall_cons || apply Forall_nil); simpl; lia. }
  destruct (@consumed_tokens_accounted E (toy_contract 10 true [] toy_window_10)
              10 evs st Hws Hp) as (H1 & H2 & H3 & H4).
  split; [exact H1 |]. split; [exact H2 |]. split; [exact H3 |].
  exact (H4 Hf).
Defined.

(** Five tokens where three fit. *)
Lemma overflow_raised_once_witness :
  let E := Toy.engine 10 true [] in
  let st := Toy.state_at 10 true 7 true [] in
  exists st' ok b rc,
    @eval_tokens E 6 [5; 6; 7; 8; 9] 2 st = Exit 1 st'
    /\ trace st' =
         trace st ++ ok
         ++ [Decode b rc;
             Stderr (overflow_message (n_past st')
                       (llama_n_ctx_train (g_model st')))]
    /\ all_accepted ok /\ rc <> 0
    /\ all_pos_0 b = n_past st'
    /\ n_past st' = n_past st + accepted ok.
Proof.
  intros E st.
  apply (@overflow_raised_once E (toy_contract 10 true [] toy_window_10)
           6 [5; 6; 7; 8; 9] 2 st).
  - unfold well_sized, Int32.INT_MAX. simpl. lia.
  - simpl. lia.
  - simpl. lia.
  - simpl. lia.
Defined.

(** The same run, evaluated: one chunk accepted at position 7, the next
    refused at position 9, and the diagnostic reports 9 tokens. *)
Example overflow_run :
  let E := Toy.engine 10 true [] in
  let st := Toy.state_at 10 true 7 true [] in
  exists c,
    @eval_tokens E 6 [5; 6; 7; 8; 9] 2 st =
    Exit 1 {| n_past := 9; g_model := tt; g_ctx := c; g_got_sigint := 0;
              FLAG_log_disable := true;
              trace := [Decode (llama_batch_get_one [5; 6] 2 7 0) 0;
                        Decode (llama_batch_get_one [7; 8] 2 9 0) 1;
                        Stderr (overflow_message 9 4096)];
              sigint_schedule := [] |}.
Proof. eexists. vm_compute. reflexivity. Qed.

(** ** Command dispatcher *)

Lemma isalpha_not_isspace (c : ascii) : isalpha c = true -> isspace c = false.
Proof.
  destruct c as [[] [] [] [] [] [] [] []]; vm_compute; congruence.
Qed.

Lemma is_command_true (line : string) :
  is_command line = true <->
  exists c rest, line = String "/" (String c rest) /\ isalpha c = true.
Proof.
  split.
  - destruct line as [| a [| c rest]];
      [discriminate | destruct a as [[] [] [] [] [] [] [] []]; discriminate |].
    destruct a as [[] [] [] [] [] [] [] []]; cbn; try discriminate. eauto.
  - intros (c & rest & -> & Hc). exact Hc.
Qed.

(** The test of [handle_command] is the specification's. *)
Lemma command_test (line : string) :
  (Ascii.eqb (char_at line 0) "/" && isalpha (char_at line 1))%bool
  = is_command line.
Proof.
  destruct line as [| a [| c rest]].
  - reflexivity.
  - destruct a as [[] [] [] [] [] [] [] []]; reflexivity.
  - destruct a as [[] [] [] [] [] [] [] []]; reflexivity.
Qed.

Lemma extract_words_cur (s cur : string) :
  cur <> EmptyString -> extract_words s cur <> [].
Proof.
  revert cur. induction s as [| c s IH]; intros cur Hcur.
  - destruct cur; [congruence | discriminate].
  - cbn [extract_words]. destruct (isspace c).
    + destruct cur; [congruence | discriminate].
    + apply IH. destruct cur; discriminate.
Qed.

Lemma command_has_name (line : string) :
  is_command line = true ->
  exists arg0 args, extract_words (cstr_tail line) EmptyString = arg0 :: args.
Proof.
  intros H. apply is_command_true in H as (c & rest & -> & Hc).
  cbn [cstr_tail extract_words]. rewrite (isalpha_not_isspace c Hc).
  destruct (extract_words rest (EmptyString ++ String c EmptyString)) eqn:Hw.
  - exfalso. revert Hw. apply extract_words_cur. discriminate.
  - eauto.
Qed.

Section Dispatcher.

Context {E : Engine}.

(** C10. Whenever the dispatcher recognises a line as a command (first
    character [/], second alphabetic), the words extracted from the rest
    of the line are at least one, so that [args[0]] exists: the call
    returns, and does not run into the undefined access. *)
Theorem command_name_defined (line : string) (st : state) :
  is_command line = true ->
  (exists arg0 args,
      extract_words (cstr_tail line) EmptyString = arg0 :: args)
  /\ (exists st', handle_command line st = Ret true st').
Proof.
  intros Hc. destruct (command_has_name line Hc) as (arg0 & args & Hw).
  split; [eauto |].
  unfold handle_command. rewrite command_test, Hc, Hw. cbn [negb].
  unfold bind, modify, get, printf, ret.
  destruct (String.eqb arg0 "stats"); [eexists; reflexivity |].
  destruct (String.eqb arg0 "context"); [| eexists; reflexivity].
  destruct (_ <? _); eexists; reflexivity.
Qed.

(** A command reports and returns: it calls neither the renderer nor the
    evaluator, and leaves the context as it is. *)
Lemma handle_command_reports (line : string) (st : state) :
  is_command line = true ->
  exists st' out,
    handle_command line st = Ret true st'
    /\ trace st' = trace st ++ out /\ Forall is_report out
    /\ n_past st' = n_past st /\ g_ctx st' = g_ctx st.
Proof.
  intros Hc. destruct (command_has_name line Hc) as (arg0 & args & Hw).
  unfold handle_command. rewrite command_test, Hc, Hw. cbn [negb].
  unfold bind, modify, get, printf, ret.
  destruct (String.eqb arg0 "stats").
  { eexists _, [_]. split; [reflexivity |]. cbn.
    repeat split. repeat constructor. }
  destruct (String.eqb arg0 "context").
  - destruct (_ <? _).
    + eexists _, [_; _]. split; [reflexivity |]. cbn. rewrite <- app_assoc.
      repeat split. repeat constructor.
    + eexists _, [_]. split; [reflexivity |]. cbn.
      repeat split. repeat constructor.
  - eexists _, [_]. split; [reflexivity |]. cbn.
    repeat split. repeat constructor.
Qed.

Lemma handle_command_chat (line : string) (st : state) :
  is_command line = false -> handle_command line st = Ret false st.
Proof.
  intros Hc. unfold handle_command. rewrite command_test, Hc. reflexivity.
Qed.

(** One iteration of the REPL on a line. *)
Lemma repl_cons (fuel : nat) (params : gpt_params)
  (smpl : llama_sampling_context) (line : string) (rest : list string)
  (st : state) :
  repl fuel params smpl (line :: rest) st =
    if is_empty line then repl fuel params smpl rest (prompted (Some line) st)
    else if is_command line
    then (handle_command line ;; repl fuel params smpl rest)
           (prompted (Some line) st)
    else (smpl' <- user_turn fuel params smpl line ;;
          repl fuel params smpl' rest) (prompted (Some line) st).
Proof.
  cbn [repl]. unfold bind at 1 2 3 4 5. unfold call, modify. cbn beta iota.
  fold (prompted (Some line) st).
  destruct (is_empty line); [reflexivity |].
  destruct (is_command line) eqn:Hc.
  - destruct (handle_command_reports line (prompted (Some line) st) Hc)
      as (st' & out & Hh & _).
    unfold bind. rewrite Hh. reflexivity.
  - unfold bind at 1. rewrite (handle_command_chat line _ Hc). reflexivity.
Qed.

(** C5. For every line, the dispatcher returns whether the line is a
    command, and a line is a command iff its first character is [/] and
    its second is alphabetic; a line that is not a command leaves the
    state as it was.  In the REPL a command line is handled by the
    dispatcher and the loop goes on with the next line, without a call of
    the turn renderer or of the evaluator; any other line that is not
    blank is rendered as a user turn.  So [/context] is a command,
    [/contextfoo] is a command, named [contextfoo] and not recognised,
    [context] is chat text, and so are [/] alone and [/] followed by a
    character that is not alphabetic. *)
Theorem dispatch_routing (fuel : nat) (params : gpt_params)
  (smpl : llama_sampling_context) (line : string) (rest : list string)
  (st : state) :
  (exists st' out,
      handle_command line st =
        (if is_command line then Ret true st' else Ret false st)
      /\ trace st' = trace st ++ out /\ Forall is_report out
      /\ n_past st' = n_past st /\ g_ctx st' = g_ctx st)
  /\ repl fuel params smpl (line :: rest) st =
       (if is_empty line
        then repl fuel params smpl rest (prompted (Some line) st)
        else if is_command line
        then (handle_command line ;; repl fuel params smpl rest)
               (prompted (Some line) st)
        else (smpl' <- user_turn fuel params smpl line ;;
              repl fuel params smpl' rest) (prompted (Some line) st))
  /\ (forall c tail, is_command (String "/" (String c tail)) = isalpha c)
  /\ is_command "/context" = true
  /\ is_command "/contextfoo" = true
  /\ handle_command "/contextfoo" st =
       Ret true (emit (Stdout ("contextfoo: unrecognized command" ++ LF)) st)
  /\ is_command "context" = false
  /\ is_command "/" = false.
Proof.
  split.
  { destruct (is_command line) eqn:Hc.
    - destruct (handle_command_reports line st Hc) as (st' & out & H).
      exists st', out. exact H.
    - exists st, []. rewrite app_nil_r.
      split; [apply handle_command_chat, Hc |]. repeat split. constructor. }
  split; [apply repl_cons |].
  repeat split; reflexivity.
Qed.

(** What the [stats] branch does to any state: the report is emitted with
    log suppression off, log suppression is on afterwards, nothing else
    changes, and the REPL goes on with the next line. *)
Lemma handle_command_stats (fuel : nat) (params : gpt_params)
  (smpl : llama_sampling_context) (line : string) (args rest : list string)
  (st : state) :
  is_command line = true ->
  extract_words (cstr_tail line) EmptyString = "stats"%string :: args ->
  handle_command line st = Ret true (after_stats st)
  /\ n_past (after_stats st) = n_past st
  /\ FLAG_log_disable (after_stats st) = true
  /\ (FLAG_log_disable st = true ->
      after_stats st
      = emit (PrintTimings false (llama_print_timings (g_ctx st))) st)
  /\ repl fuel params smpl (line :: rest) st =
       repl fuel params smpl rest (after_stats (prompted (Some line) st)).
Proof.
  intros Hc Hw.
  assert (Hh : forall s, handle_command line s = Ret true (after_stats s)).
  { intros s. unfold handle_command. rewrite command_test, Hc, Hw. reflexivity. }
  split; [apply Hh |]. split; [reflexivity |]. split; [reflexivity |].
  split.
  - intros Hf. destruct st. cbn in Hf. subst. reflexivity.
  - rewrite repl_cons, Hc.
    assert (He : is_empty line = false).
    { apply is_command_true in Hc as (c & tail & -> & _). reflexivity. }
    rewrite He. unfold bind. rewrite Hh. reflexivity.
Qed.

End Dispatcher.

Lemma command_name_defined_witness :
  let E := Toy.engine 10 true [] in
  let st := Toy.state_at 10 true 4 true [] in
  (exists arg0 args,
      extract_words (cstr_tail "/context  please") EmptyString = arg0 :: args)
  /\ (exists st', @handle_command E "/context  please" st = Ret true st').
Proof.
  intros E st. apply (@command_name_defined E "/context  please" st).
  reflexivity.
Defined.

(** ** Generation loop *)

Section Generation.

Context {E : Engine}.

(** [eval_id] decodes the token at the current position and advances by
    one, or leaves through the overflow exit. *)
Lemma eval_id_step (id : llama_token) (st : state) :
  let b := llama_batch_get_one [id] 1 (n_past st) 0 in
  let r := llama_decode (g_ctx st) b in
  let st1 := emit (Decode b (snd r)) (set_g_ctx (fst r) st) in
  eval_id id st =
    if snd r =? 0
    then Ret tt (set_n_past (Int32.add (n_past st) 1) st1)
    else Exit 1 (emit (Stderr (overflow_message (n_past st)
                                 (llama_n_ctx_train (g_model st)))) st1).
Proof.
  intros b r st1. unfold eval_id, eval_tokens.
  rewrite eval_tokens_loop_step
    by (unfold well_sized, Int32.INT_MAX; cbn; lia).
  change (firstn (Z.to_nat 1) (skipn (Z.to_nat 0) [id])) with [id].
  change (Z.of_nat (List.length [id])) with 1.
  change (int_size [id]) with 1. change (0 + 1) with 1.
  fold b. fold r. fold st1.
  destruct (snd r =? 0); reflexivity.
Qed.

(** C6. In a generation turn, at the top of any sampling step: if the
    interrupt flag is read set (it was set, or the handler has just run),
    no token is sampled, the loop ends, the flag is cleared and a newline
    is written.  That newline is the only event added; sampling state,
    [n_past] and the engine context stay as they were. *)
Theorem cancellation_stops_generation (fuel : nat) (params : gpt_params)
  (smpl : llama_sampling_context) (st : state) :
  g_got_sigint (deliver_sigint st) <> 0 ->
  exists st',
    generation (S fuel) params smpl st = Ret smpl st'
    /\ g_got_sigint st' = 0
    /\ trace st' = trace st ++ [Stdout LF]
    /\ n_past st' = n_past st
    /\ g_ctx st' = g_ctx st /\ g_model st' = g_model st.
Proof.
  intros Hset. unfold generation. cbn [generate].
  unfold bind at 1 2 3. unfold modify at 1, get at 1.
  destruct (Z.eqb_spec (g_got_sigint (deliver_sigint st)) 0) as [H0 | _];
    [contradiction |].
  eexists. split; [reflexivity |]. unfold deliver_sigint.
  destruct (sigint_schedule st) as [| [] sched]; cbn; auto.
Qed.

(** C7. A generation step in which the flag is read clear samples a token
    and folds it into the sampling history.  If it is the end of
    generation, nothing is printed for it, the turn ends and the newline
    is written.  Otherwise its text is written to standard output, the
    stream is flushed, and the token is decoded alone, as a batch of one
    at the current position: when the engine accepts it, [n_past] is one
    more and the turn goes on with the next step; when it refuses,
    the process leaves through the overflow exit. *)
Theorem generation_step (fuel : nat) (params : gpt_params)
  (smpl : llama_sampling_context) (st : state) :
  g_got_sigint (deliver_sigint st) = 0 ->
  Int32.in_range (n_past st + 1) ->
  let st0 := deliver_sigint st in
  let id := fst (llama_sampling_sample smpl (g_ctx st0)) in
  let smpl1 := snd (llama_sampling_sample smpl (g_ctx st0)) in
  let smpl2 := llama_sampling_accept smpl1 (g_ctx st0) id true in
  let sampled := emit (Accept id true) (emit (Sample id) st0) in
  let printed :=
    emit Flush
      (emit (Stdout (llama_token_to_piece (g_ctx st0) id (special params)))
         sampled) in
  let b := llama_batch_get_one [id] 1 (n_past st) 0 in
  let r := llama_decode (g_ctx st0) b in
  let decoded := emit (Decode b (snd r)) (set_g_ctx (fst r) printed) in
  generation (S fuel) params smpl st =
    if llama_token_is_eog (g_model st0) id
    then Ret smpl2 (emit (Stdout LF) (set_g_got_sigint 0 sampled))
    else if snd r =? 0
    then generation fuel params smpl2 (set_n_past (n_past st + 1) decoded)
    else Exit 1 (emit (Stderr (overflow_message (n_past st)
                                 (llama_n_ctx_train (g_model st0)))) decoded).
Proof.
  intros Hclear Hrange st0 id smpl1 smpl2 sampled printed b r decoded.
  assert (Hn : n_past st0 = n_past st).
  { subst st0. unfold deliver_sigint.
    destruct (sigint_schedule st) as [| [] sched]; reflexivity. }
  unfold generation. cbn [generate].
  unfold bind at 1 2 3. unfold modify at 1, get at 1. fold st0.
  subst id smpl1 smpl2. unfold st0 in Hclear |- *. rewrite Hclear. fold st0.
  cbn [Z.eqb].
  destruct (llama_sampling_sample smpl (g_ctx st0)) as [id smpl1] eqn:Hs.
  cbn [fst snd] in *.
  unfold bind at 1 2. unfold modify at 1 2. cbn [g_model emit].
  destruct (llama_token_is_eog (g_model st0) id); [reflexivity |].
  unfold bind at 1 2 3. unfold printf, fflush_stdout, modify.
  fold sampled. fold printed.
  rewrite eval_id_step.
  assert (Hp : n_past printed = n_past st) by (subst printed sampled; cbn; exact Hn).
  rewrite Hp. change (g_ctx printed) with (g_ctx st0).
  change (g_model printed) with (g_model st0).
  fold b. fold r. fold decoded.
  rewrite add_id by exact Hrange.
  destruct (snd r =? 0); reflexivity.
Qed.

End Generation.

Lemma cancellation_stops_generation_witness :
  let E := Toy.engine 10 true [] in
  let st := Toy.state_at 10 true 6 true [true] in
  exists st',
    @generation E 3 (Toy.params "sys") [104; 105] st
    = Ret [104; 105] st'
    /\ g_got_sigint st' = 0
    /\ trace st' = trace st ++ [Stdout LF]
    /\ n_past st' = n_past st
    /\ g_ctx st' = g_ctx st /\ g_model st' = g_model st.
Proof.
  intros E st.
  apply (@cancellation_stops_generation E 2 (Toy.params "sys")
           [104; 105] st).
  simpl. discriminate.
Defined.

(** A step that samples token 104 with six tokens in a window of ten. *)
Lemma generation_step_witness :
  let E := Toy.engine 10 true [] in
  let p := Toy.params "sys" in
  let st := Toy.state_at 10 true 6 true [false] in
  @generation E 3 p [104; 105] st =
  @generation E 2 p [105]
    {| n_past := 7; g_model := tt; g_ctx := repeat 7 6%nat ++ [104];
       g_got_sigint := 0; FLAG_log_disable := true;
       trace := [Sample 104; Accept 104 true; Stdout "h"; Flush;
                 Decode (llama_batch_get_one [104] 1 6 0) 0];
       sigint_schedule := [] |}.
Proof.
  intros E p st.
  assert (H1 : g_got_sigint (deliver_sigint st) = 0) by reflexivity.
  assert (H2 : Int32.in_range (n_past st + 1)).
  { unfold Int32.in_range, Int32.INT_MIN, Int32.INT_MAX. simpl. lia. }
  exact (@generation_step E 2 p [104; 105] st H1 H2).
Defined.

(** ** The trace only grows *)

Create HintDb appends.

Section Trace.

Context {E : Engine}.

Lemma extends_refl (st : state) : extends st st.
Proof. exists []. now rewrite app_nil_r. Qed.

Lemma extends_trans (st1 st2 st3 : state) :
  extends st1 st2 -> extends st2 st3 -> extends st1 st3.
Proof.
  intros [d1 H1] [d2 H2]. exists (d1 ++ d2). now rewrite H2, H1, app_assoc.
Qed.

Lemma appends_ret {A : Type} (a : A) : appends (ret a).
Proof. intros st. apply extends_refl. Qed.

Lemma appends_bind {A B : Type} (m : M A) (k : A -> M B) :
  appends m -> (forall a, appends (k a)) -> appends (bind m k).
Proof.
  intros Hm Hk st. specialize (Hm st). unfold bind.
  destruct (m st) as [a st1 | c st1 | st1 | st1]; cbn in *; try exact Hm.
  eapply extends_trans; [exact Hm | apply Hk].
Qed.

Lemma appends_get : appends get.
Proof. intros st. apply extends_refl. Qed.

Lemma appends_emit (e : event) : appends (modify (emit e)).
Proof. intros st. exists [e]. reflexivity. Qed.

Lemma appends_frame (f : state -> state) :
  (forall st, trace (f st) = trace st) -> appends (modify f).
Proof. intros Hf st. exists []. cbn. now rewrite Hf, app_nil_r. Qed.

Lemma appends_exit {A : Type} (c : Z) : appends (@exit E A c).
Proof. intros st. apply extends_refl. Qed.

Lemma appends_undefined {A : Type} : appends (@undefined E A).
Proof. intros st. apply extends_refl. Qed.

Lemma appends_out_of_fuel {A : Type} : appends (@out_of_fuel E A).
Proof. intros st. apply extends_refl. Qed.

Lemma appends_decode (b : llama_batch) : appends (decode b).
Proof.
  intros st. unfold decode. destruct (llama_decode (g_ctx st) b) as [c rc].
  exists [Decode b rc]. reflexivity.
Qed.

Lemma appends_tokenize (text : string) (a p : bool) : appends (tokenize text a p).
Proof. intros st. exists [Tokenize text a p]. reflexivity. Qed.

Lemma appends_apply_template (tmpl : string) (chat : list llama_chat_msg)
  (a : bool) : appends (apply_template tmpl chat a).
Proof. intros st. eexists [_]. reflexivity. Qed.

Lemma trace_deliver_sigint (st : state) : trace (deliver_sigint st) = trace st.
Proof.
  unfold deliver_sigint. destruct (sigint_schedule st) as [| [] l]; reflexivity.
Qed.

#[local] Hint Resolve appends_ret appends_get appends_emit appends_exit
  appends_undefined appends_out_of_fuel appends_decode appends_tokenize
  appends_apply_template : appends.
#[local] Hint Extern 1 (appends (modify _)) =>
  apply appends_frame; intros; reflexivity : appends.
#[local] Hint Extern 1 (appends (modify deliver_sigint)) =>
  apply appends_frame; apply trace_deliver_sigint : appends.
#[local] Hint Extern 2 (appends (bind _ _)) =>
  apply appends_bind; [| intros] : appends.
#[local] Hint Extern 3 (appends (if ?c then _ else _)) => destruct c : appends.

Ltac appends_auto :=
  unfold printf, fprintf_stderr, fflush_stdout, call; auto 20 with appends.

Lemma appends_die {A : Type} : appends (@die_out_of_context E A).
Proof. unfold die_out_of_context. appends_auto. Qed.

#[local] Hint Resolve appends_die : appends.

Lemma appends_eval_tokens_loop (fuel : nat) (tokens : list llama_token)
  (n_batch N : Z) :
  forall i, appends (eval_tokens_loop fuel tokens n_batch N i).
Proof.
  induction fuel as [| fuel IH]; intros i; cbn [eval_tokens_loop]; appends_auto.
Qed.

Lemma appends_eval_tokens (fuel : nat) (tokens : list llama_token) (n_batch : Z) :
  appends (eval_tokens fuel tokens n_batch).
Proof. apply appends_eval_tokens_loop. Qed.

#[local] Hint Resolve appends_eval_tokens : appends.

Lemma appends_handle_command (line : string) : appends (handle_command line).
Proof.
  unfold handle_command.
  destruct (negb _); [appends_auto |].
  destruct (extract_words _ _); appends_auto.
Qed.

Lemma appends_generate (params : gpt_params) (fuel : nat) :
  forall smpl, appends (generate fuel params smpl).
Proof.
  induction fuel as [| fuel IH]; intros smpl; cbn [generate]; [appends_auto |].
  apply appends_bind; [appends_auto | intros _].
  apply appends_bind; [appends_auto | intros st].
  destruct (g_got_sigint st =? 0); [| appends_auto].
  destruct (llama_sampling_sample smpl (g_ctx st)) as [id smpl1].
  unfold eval_id. appends_auto.
Qed.

#[local] Hint Resolve appends_handle_command appends_generate : appends.

Lemma appends_generation (params : gpt_params) (fuel : nat)
  (smpl : llama_sampling_context) : appends (generation fuel params smpl).
Proof. unfold generation. appends_auto. Qed.

#[local] Hint Resolve appends_generation : appends.

Lemma appends_user_turn (params : gpt_params) (fuel : nat)
  (smpl : llama_sampling_context) (line : string) :
  appends (user_turn fuel params smpl line).
Proof. unfold user_turn, eval_string. appends_auto. Qed.

#[local] Hint Resolve appends_user_turn : appends.

Lemma appends_repl (params : gpt_params) (fuel : nat) (lines : list string) :
  forall smpl, appends (repl fuel params smpl lines).
Proof.
  induction lines as [| line rest IH]; intros smpl; cbn [repl]; appends_auto.
Qed.

#[local] Hint Resolve appends_repl : appends.

(** ** Turn renderer *)

Lemma bind_ret {A B : Type} (m : M A) (k : A -> M B) (st st1 : state) (a : A) :
  m st = Ret a st1 -> bind m k st = k a st1.
Proof. intros H. unfold bind. now rewrite H. Qed.

Lemma bind_assoc {A B D : Type} (m : M A) (f : A -> M B) (g : B -> M D)
  (st : state) :
  bind (bind m f) g st = bind m (fun a => bind (f a) g) st.
Proof. unfold bind. destruct (m st); reflexivity. Qed.

(** C8, as the code has it.  The system turn is rendered with
    [add_ass = false] and tokenized with a beginning-of-sequence marker
    when [llama_should_add_bos_token] says so for the model, and not
    otherwise; every user turn is rendered with [add_ass = true] and
    tokenized without the marker.  In both, control tokens are parsed, and
    the two calls come first: the turn starts with them, whatever
    follows. *)
Theorem turn_rendering (fuel : nat) (params : gpt_params)
  (lines : list string) (smpl : llama_sampling_context) (line : string)
  (st : state) :
  let add_bos := llama_should_add_bos_token (llama_get_model (g_ctx st)) in
  let system := [{| role := "system"; content := prompt params |}] in
  let user := [{| role := "user"; content := line |}] in
  extends
    (rendered (chat_template params) system false add_bos
       (emit (print_ephemeral "loading prompt...") st))
    (final_state (session fuel params lines st))
  /\ extends
       (rendered (chat_template params) user true false st)
       (final_state (user_turn fuel params smpl line st)).
Proof.
  intros add_bos system user. split.
  - unfold session.
    erewrite bind_ret by reflexivity.
    erewrite bind_ret by reflexivity.
    erewrite bind_ret by reflexivity.
    unfold eval_string. rewrite bind_assoc.
    erewrite bind_ret by reflexivity.
    match goal with
    | |- extends _ (final_state (?k ?s)) =>
        apply (fun H : appends k => H s)
    end.
    appends_auto.
  - unfold user_turn.
    erewrite bind_ret by reflexivity.
    unfold eval_string. rewrite bind_assoc.
    erewrite bind_ret by reflexivity.
    match goal with
    | |- extends _ (final_state (?k ?s)) =>
        apply (fun H : appends k => H s)
    end.
    appends_auto.
Qed.

End Trace.

(** ** Exit statuses *)

Create HintDb safe.

Section Status.

Context {E : Engine}.

Lemma safe_ret {A : Type} (Q : A -> Prop) (a : A) : Q a -> safe Q (ret a).
Proof. intros H st. exact H. Qed.

Lemma safe_bind {A B : Type} (Q : B -> Prop) (m : M A) (k : A -> M B) :
  safe any m -> (forall a, safe Q (k a)) -> safe Q (bind m k).
Proof.
  intros Hm Hk st. specialize (Hm st). unfold bind.
  destruct (m st) as [a st1 | c st1 | st1 | st1]; cbn in *;
    [apply Hk | exact Hm | exact Hm | exact I].
Qed.

Lemma safe_weaken {A : Type} (Q : A -> Prop) (m : M A) :
  safe Q m -> safe any m.
Proof.
  intros H st. specialize (H st). destruct (m st); cbn in *; auto. exact I.
Qed.

Lemma safe_get (Q : state -> Prop) : (forall st, Q st) -> safe Q get.
Proof. intros H st. apply H. Qed.

Lemma safe_modify (f : state -> state) : safe any (modify f).
Proof. intros st. exact I. Qed.

Lemma safe_out_of_fuel {A : Type} (Q : A -> Prop) : safe Q (@out_of_fuel E A).
Proof. intros st. exact I. Qed.

Lemma safe_decode (b : llama_batch) : safe any (decode b).
Proof.
  intros st. unfold decode. destruct (llama_decode (g_ctx st) b). exact I.
Qed.

Lemma safe_tokenize (text : string) (a p : bool) : safe any (tokenize text a p).
Proof. intros st. exact I. Qed.

Lemma safe_apply_template (tmpl : string) (chat : list llama_chat_msg)
  (a : bool) : safe any (apply_template tmpl chat a).
Proof. intros st. exact I. Qed.

Lemma die_out_of_context_exit {A : Type} (st : state) :
  @die_out_of_context E A st =
  Exit 1 (emit (Stderr (overflow_message (n_past st)
                          (llama_n_ctx_train (g_model st)))) st).
Proof. reflexivity. Qed.

Lemma safe_die {A : Type} (Q : A -> Prop) : safe Q (@die_out_of_context E A).
Proof.
  intros st. rewrite die_out_of_context_exit. cbn.
  split; [reflexivity |]. exists (trace st). reflexivity.
Qed.

#[local] Hint Resolve safe_modify safe_out_of_fuel safe_decode safe_tokenize
  safe_apply_template safe_die : safe.
#[local] Hint Extern 1 (safe _ (ret _)) => apply safe_ret; exact I : safe.
#[local] Hint Extern 1 (safe _ get) => apply safe_get; intros; exact I : safe.
#[local] Hint Extern 2 (safe _ (bind _ _)) =>
  apply safe_bind; [| intros] : safe.
#[local] Hint Extern 3 (safe _ (if ?c then _ else _)) => destruct c : safe.

Ltac safe_auto :=
  unfold printf, fprintf_stderr, fflush_stdout, call; auto 20 with safe.

Lemma safe_eval_tokens_loop (fuel : nat) (tokens : list llama_token)
  (n_batch N : Z) :
  forall i, safe any (eval_tokens_loop fuel tokens n_batch N i).
Proof.
  induction fuel as [| fuel IH]; intros i; cbn [eval_tokens_loop]; safe_auto.
Qed.

Lemma safe_eval_tokens (fuel : nat) (tokens : list llama_token) (n_batch : Z) :
  safe any (eval_tokens fuel tokens n_batch).
Proof. apply safe_eval_tokens_loop. Qed.

#[local] Hint Resolve safe_eval_tokens : safe.

Lemma safe_handle_command (line : string) : safe any (handle_command line).
Proof.
  intros st. destruct (is_command line) eqn:Hc.
  - destruct (handle_command_reports line st Hc) as (st' & out & H & _).
    rewrite H. exact I.
  - rewrite (handle_command_chat line st Hc). exact I.
Qed.

Lemma safe_generate (params : gpt_params) (fuel : nat) :
  forall smpl, safe any (generate fuel params smpl).
Proof.
  induction fuel as [| fuel IH]; intros smpl; cbn [generate]; [safe_auto |].
  apply safe_bind; [safe_auto | intros _].
  apply safe_bind; [safe_auto | intros st].
  destruct (g_got_sigint st =? 0); [| safe_auto].
  destruct (llama_sampling_sample smpl (g_ctx st)) as [id smpl1].
  unfold eval_id. safe_auto.
Qed.

#[local] Hint Resolve safe_handle_command safe_generate : safe.

Lemma safe_user_turn (params : gpt_params) (fuel : nat)
  (smpl : llama_sampling_context) (line : string) :
  safe any (user_turn fuel params smpl line).
Proof. unfold user_turn, generation, eval_string. safe_auto. Qed.

#[local] Hint Resolve safe_user_turn : safe.

Lemma safe_repl (params : gpt_params) (fuel : nat) (lines : list string) :
  forall smpl, safe any (repl fuel params smpl lines).
Proof.
  induction lines as [| line rest IH]; intros smpl; cbn [repl]; safe_auto.
Qed.

#[local] Hint Resolve safe_repl : safe.

(** The session returns 0, or leaves through the overflow exit. *)
Lemma safe_session (fuel : nat) (params : gpt_params) (lines : list string) :
  safe (fun status => status = 0) (session fuel params lines).
Proof.
  unfold session, eval_string.
  repeat (apply safe_bind; [safe_auto | intros]).
  apply safe_ret. reflexivity.
Qed.


(** C4, as the code has it.  On overflow the process ends at once: the
    diagnostic goes to the error stream, it reports the current token
    count and the context size of the model's training, and the exit
    status is 1.  That status is not zero and differs from the status of a
    normal end (0), of a model that does not load (2) and of a context
    that cannot be created (3); it is the status of bad arguments (1).
    A run that got its context ends with status 0, or with status 1 after
    the diagnostic, or is still running when the fuel is spent. *)
Theorem overflow_exit_status (A : Type) (st : state) (argv : list string)
  (log_disable0 : bool) (schedule : list bool) (lines : list string)
  (fuel : nat) :
  @die_out_of_context E A st =
    Exit 1 (emit (Stderr (overflow_message (n_past st)
                            (llama_n_ctx_train (g_model st)))) st)
  /\ (exists pre mid post, forall n m,
         overflow_message n m
         = (pre ++ fmt_d n ++ mid ++ fmt_d m ++ post)%string)
  /\ let r := chatbot_main argv log_disable0 schedule lines fuel in
     match gpt_params_parse argv with
     | None => status_of r = Some 1
     | Some p =>
         match llama_load_model_from_file (model p) with
         | None => status_of r = Some 2
         | Some m =>
             match llama_new_context_with_model m p with
             | None => status_of r = Some 3
             | Some c =>
                 status_of r = Some 0
                 \/ (status_of r = Some 1
                     /\ exists ev n mx,
                          events_of r = ev ++ [Stderr (overflow_message n mx)])
                 \/ (exists ev, r = Unfinished ev)
             end
         end
     end.
Proof.
  split; [reflexivity |]. split.
  { exists (LF ++ BRIGHT_RED ++ "error: ran out of context window at ")%string,
      " tokens; you can use the maximum context window size by passing the flag `-c "%string,
      ("` to llamafile." ++ UNFOREGROUND ++ LF)%string.
    reflexivity. }
  intros r. subst r. unfold chatbot_main.
  destruct (gpt_params_parse argv) as [p |]; [| reflexivity].
  destruct (llama_load_model_from_file (model p)) as [m |]; [| reflexivity].
  destruct (llama_new_context_with_model m p) as [c |]; [| reflexivity].
  match goal with
  | |- context [session ?f ?q ?l ?s] =>
      pose proof (safe_session f q l s) as Hs; destruct (session f q l s)
  end; cbn [sound status_of events_of] in Hs |- *.
  - left. now rewrite Hs.
  - right. left. destruct Hs as [-> (tr & Htr)]. split; [reflexivity |].
    eexists _, _, _. exact Htr.
  - contradiction.
  - right. right. eexists. reflexivity.
Qed.

End Status.

(** The scenario of the specification, run: a window of 10, the system
    turn takes 4 tokens, the user turn 5, the first generated token fills
    the window and the second one overflows.  The process ends with the
    status it also has for bad arguments. *)
Lemma overflow_status_is_bad_arguments_status :
  let E := Toy.engine 10 true [104; 105; 106] in
  let overflow := @chatbot_main E ["llamafile"; "sys"]%string true []
                    ["helo"%string] 100 in
  let bad_arguments := @chatbot_main E [] true [] ["helo"%string] 100 in
  (exists ev, events_of overflow = ev ++ [Stderr (overflow_message 10 4096)])
  /\ @gpt_params_parse E [] = None
  /\ status_of overflow = status_of bad_arguments
  /\ ~ (forall status, status_of overflow = Some status ->
         ~ In status [0; 1; 2; 3]).
Proof.
  intros E overflow bad_arguments. split.
  { exists (removelast (events_of overflow)). vm_compute. reflexivity. }
  split; [reflexivity |]. split; [vm_compute; reflexivity |].
  intros H. apply (H 1); [vm_compute; reflexivity | cbn; auto].
Qed.

(** C8 as stated fails for a model that takes no beginning-of-sequence
    marker: its system turn is tokenized without one. *)
Lemma system_turn_without_bos :
  let E := Toy.engine 10 false [] in
  let p := Toy.params "sys" in
  let st := Toy.state_at 10 false 0 true [] in
  ~ extends
      (rendered (chat_template p) [{| role := "system"; content := prompt p |}]
         false true (emit (print_ephemeral "loading prompt...") st))
      (final_state (@session E 10 p [] st)).
Proof.
  intros E p st [d H]. vm_compute in H. discriminate H.
Qed.

(** ** The accountant over a whole session *)

Create HintDb accounts.

Section SessionInvariant.

Context {E : Engine} {C : EngineContract}.

Lemma accounts_ret {A : Type} (a : A) : accounts (ret a).
Proof. intros st Hp. apply accounted_refl, Hp. Qed.

Lemma accounts_bind {A B : Type} (m : M A) (k : A -> M B) :
  accounts m -> (forall a, accounts (k a)) -> accounts (bind m k).
Proof.
  intros Hm Hk st Hp. specialize (Hm st Hp). unfold bind.
  destruct (m st) as [a st1 | c st1 | st1 | st1]; cbn in *; try exact Hm.
  eapply accounted_trans; [exact Hm | apply Hk].
  destruct Hm as (_ & _ & _ & HB & _). exact HB.
Qed.

Lemma accounts_get : accounts get.
Proof. intros st Hp. apply accounted_refl, Hp. Qed.

Lemma accounts_out_of_fuel {A : Type} : accounts (@out_of_fuel E A).
Proof. intros st Hp. apply accounted_refl, Hp. Qed.

(** An event that is not a decode leaves the account as it is. *)
Lemma accounts_emit (e : event) :
  accepted [e] = 0 -> accounts (modify (emit e)).
Proof.
  intros He st Hp. exists [e]. cbn [final_state modify]. rewrite He.
  cbn. repeat split; lia.
Qed.

Lemma accounts_frame (f : state -> state) :
  (forall st, trace (f st) = trace st /\ n_past (f st) = n_past st
              /\ g_ctx (f st) = g_ctx st) ->
  accounts (modify f).
Proof.
  intros Hf st Hp. destruct (Hf st) as (Ht & Hn & Hc).
  exists []. cbn. rewrite Ht, Hn, Hc, app_nil_r. repeat split; lia.
Qed.

Lemma accounts_deliver_sigint : accounts (modify deliver_sigint).
Proof.
  apply accounts_frame. intros st. unfold deliver_sigint.
  destruct (sigint_schedule st) as [| [] l]; repeat split.
Qed.

Lemma accounts_tokenize (text : string) (a p : bool) :
  accounts (tokenize text a p).
Proof.
  intros st Hp. exists [Tokenize text a p]. cbn. repeat split; lia.
Qed.

Lemma accounts_apply_template (tmpl : string) (chat : list llama_chat_msg)
  (a : bool) : accounts (apply_template tmpl chat a).
Proof. intros st Hp. eexists [_]. cbn. repeat split; lia. Qed.

Lemma accounts_eval_tokens (fuel : nat) (tokens : list llama_token)
  (n_batch : Z) :
  0 < n_batch ->
  (forall c, llama_n_ctx c + n_batch <= Int32.INT_MAX) ->
  accounts (eval_tokens fuel tokens n_batch).
Proof.
  intros Hb Hwin st Hp. unfold eval_tokens.
  apply eval_tokens_loop_accounted_window; auto; lia.
Qed.

Lemma accounts_handle_command (line : string) : accounts (handle_command line).
Proof.
  intros st Hp. destruct (is_command line) eqn:Hc.
  - destruct (handle_command_reports line st Hc)
      as (st' & out & H & Ht & Hout & Hn & Hg).
    rewrite H. cbn. exists out. rewrite Hn, Hg.
    assert (Hacc : accepted out = 0).
    { clear - Hout. induction Hout as [| e out He _ IH]; [reflexivity |].
      destruct e; cbn in He |- *; try contradiction; exact IH. }
    rewrite Hacc. repeat split; try assumption; lia.
  - rewrite (handle_command_chat line st Hc). apply accounted_refl, Hp.
Qed.

#[local] Hint Resolve accounts_ret accounts_get accounts_out_of_fuel
  accounts_deliver_sigint accounts_tokenize accounts_apply_template
  accounts_handle_command : accounts.
#[local] Hint Extern 1 (accounts (modify (emit _))) =>
  apply accounts_emit; reflexivity : accounts.
#[local] Hint Extern 1 (accounts (modify (set_g_got_sigint _))) =>
  apply accounts_frame; intros; repeat split : accounts.
#[local] Hint Extern 2 (accounts (bind _ _)) =>
  apply accounts_bind; [| intros] : accounts.
#[local] Hint Extern 3 (accounts (if ?c then _ else _)) => destruct c : accounts.

Ltac accounts_auto :=
  unfold printf, fprintf_stderr, fflush_stdout, call; auto 20 with accounts.

Variable params : gpt_params.

Hypothesis batch_size_positive : 0 < n_batch params.

Hypothesis window_leaves_room :
  forall c, llama_n_ctx c + n_batch params <= Int32.INT_MAX.

Lemma accounts_eval_string (fuel : nat) (str : string) (a p : bool) :
  accounts (eval_string fuel str (n_batch params) a p).
Proof.
  intros st Hp. unfold eval_string. erewrite bind_ret by reflexivity.
  pose proof (accounts_tokenize str a p st Hp) as Ht. cbn in Ht.
  eapply accounted_trans; [exact Ht |].
  apply accounts_eval_tokens;
    [exact batch_size_positive | exact window_leaves_room |].
  destruct Ht as (_ & _ & _ & HB & _). exact HB.
Qed.

Lemma accounts_eval_id (id : llama_token) : accounts (eval_id id).
Proof.
  intros st Hp. unfold eval_id, eval_tokens.
  apply eval_tokens_loop_accounted;
    [unfold well_sized, Int32.INT_MAX; cbn; lia | lia | exact Hp].
Qed.

#[local] Hint Resolve accounts_eval_string accounts_eval_id : accounts.

Lemma accounts_generate (fuel : nat) :
  forall smpl, accounts (generate fuel params smpl).
Proof.
  induction fuel as [| fuel IH]; intros smpl; cbn [generate]; [accounts_auto |].
  apply accounts_bind; [accounts_auto | intros _].
  apply accounts_bind; [accounts_auto | intros st].
  destruct (g_got_sigint st =? 0); [| accounts_auto].
  destruct (llama_sampling_sample smpl (g_ctx st)) as [id smpl1].
  accounts_auto.
Qed.

#[local] Hint Resolve accounts_generate : accounts.

Lemma accounts_user_turn (fuel : nat) (smpl : llama_sampling_context)
  (line : string) : accounts (user_turn fuel params smpl line).
Proof. unfold user_turn, generation. accounts_auto. Qed.

#[local] Hint Resolve accounts_user_turn : accounts.

Lemma accounts_repl (fuel : nat) (lines : list string) :
  forall smpl, accounts (repl fuel params smpl lines).
Proof.
  induction lines as [| line rest IH]; intros smpl; cbn [repl]; accounts_auto.
Qed.

#[local] Hint Resolve accounts_repl : accounts.

(** X1. Over a whole session, wherever it is left and whatever the lines and
    the tokenizer give, [n_past] is the sum of the lengths of the chunks
    the engine accepted and lies within the window: every change of
    [n_past] is made by [eval_tokens].  The batch size is positive and
    the window leaves room for one batch below [INT_MAX]. *)
Theorem session_accounted (fuel : nat) (lines : list string) (st : state) :
  0 <= n_past st <= llama_n_ctx (g_ctx st) ->
  accounted st (final_state (session fuel params lines st)).
Proof.
  revert st. change (accounts (session fuel params lines)).
  unfold session, print_ephemeral, clear_ephemeral. accounts_auto.
Qed.

End SessionInvariant.

(** The scenario of the specification under the session invariant: when
    the run ends in the overflow exit, [n_past] is 10, the sum of the
    chunks accepted, in a window of 10. *)
Lemma session_accounted_witness :
  let E := Toy.engine 10 true [104; 105; 106] in
  let p := Toy.params "sys" in
  let st := @Build_state E 0 tt [] 0 true [] [] in
  accounted st (final_state (@session E 100 p ["helo"%string] st)).
Proof.
  intros E p st.
  apply (@session_accounted E (toy_contract 10 true _ toy_window_10) p).
  - simpl. lia.
  - intros c. unfold Int32.INT_MAX. simpl. lia.
  - simpl. lia.
Defined.

Example session_overflow_at_10 :
  let E := Toy.engine 10 true [104; 105; 106] in
  let p := Toy.params "sys" in
  let st := @Build_state E 0 tt [] 0 true [] [] in
  exists st', @session E 100 p ["helo"%string] st = Exit 1 st'
              /\ n_past st' = 10 /\ accepted (trace st') = 10.
Proof. eexists. split; [vm_compute; reflexivity |]. split; reflexivity. Qed.

(** * Further properties of the code *)

(** ** Strings *)

Lemma string_app_nil_r (s : string) : (s ++ EmptyString)%string = s.
Proof. induction s as [| c s IH]; cbn; [reflexivity | now rewrite IH]. Qed.

Lemma string_app_assoc (a b c : string) :
  ((a ++ b) ++ c)%string = (a ++ (b ++ c))%string.
Proof. induction a as [| x a IH]; cbn; [reflexivity | now rewrite IH]. Qed.

Lemma string_length_app (a b : string) :
  String.length (a ++ b) = (String.length a + String.length b)%nat.
Proof. induction a as [| x a IH]; cbn; [reflexivity | now rewrite IH]. Qed.

Lemma none_of_app (p : ascii -> bool) (a b : string) :
  none_of p (a ++ b) = (none_of p a && none_of p b)%bool.
Proof.
  induction a as [| x a IH]; cbn; [reflexivity |].
  rewrite IH. now rewrite andb_assoc.
Qed.

Lemma char_at_app_l (a b : string) (i : nat) :
  (i < String.length a)%nat -> char_at (a ++ b) i = char_at a i.
Proof.
  intros Hi. unfold char_at. now rewrite <- (append_correct1 a b i Hi).
Qed.

Lemma char_at_app_r (a b : string) (i : nat) :
  char_at (a ++ b) (String.length a + i) = char_at b i.
Proof.
  unfold char_at. rewrite Nat.add_comm. now rewrite <- (append_correct2 a b i).
Qed.

Lemma substring_app (a b c : string) :
  String.substring (String.length a) (String.length b) (a ++ b ++ c) = b.
Proof.
  induction a as [| x a IH]; [| exact IH].
  cbn [String.length append]. revert c.
  induction b as [| y b IHb]; intros c.
  - destruct c; reflexivity.
  - cbn. now rewrite IHb.
Qed.

(** ** Words of a command line *)

Lemma extract_words_run (w s cur : string) :
  none_of isspace w = true ->
  extract_words (w ++ s) cur = extract_words s (cur ++ w).
Proof.
  revert cur. induction w as [| c w IH]; intros cur Hw.
  - now rewrite string_app_nil_r.
  - cbn in Hw. apply andb_true_iff in Hw as [Hc Hw].
    apply negb_true_iff in Hc. cbn [append extract_words]. rewrite Hc.
    rewrite (IH _ Hw), string_app_assoc. reflexivity.
Qed.

Lemma extract_words_blank (s : string) :
  is_empty s = true -> extract_words s EmptyString = [].
Proof.
  induction s as [| c s IH]; [reflexivity |]. cbn.
  destruct (isspace c); cbn; [exact IH | discriminate].
Qed.

Lemma extract_words_skip (lead s : string) :
  is_empty lead = true ->
  extract_words (lead ++ s) EmptyString = extract_words s EmptyString.
Proof.
  induction lead as [| c lead IH]; [reflexivity |]. cbn.
  destruct (isspace c); cbn; [exact IH | discriminate].
Qed.

Lemma extract_words_sep (sep s cur : string) :
  is_empty sep = true -> sep <> EmptyString -> cur <> EmptyString ->
  extract_words (sep ++ s) cur = cur :: extract_words s EmptyString.
Proof.
  intros Hsep Hne Hcur. destruct sep as [| c sep]; [congruence |].
  cbn in Hsep |- *. destruct (isspace c); cbn in Hsep; [| discriminate].
  destruct cur; [congruence |]. now rewrite extract_words_skip.
Qed.

Lemma extract_words_last (trail cur : string) :
  is_empty trail = true -> cur <> EmptyString ->
  extract_words trail cur = [cur].
Proof.
  intros Ht Hcur. destruct trail as [| c trail].
  - destruct cur; [congruence | reflexivity].
  - cbn in Ht |- *. destruct (isspace c); cbn in Ht; [| discriminate].
    destruct cur; [congruence |]. now rewrite extract_words_blank.
Qed.

Lemma extract_words_are_words (s cur : string) :
  none_of isspace cur = true -> Forall is_word (extract_words s cur).
Proof.
  revert cur. induction s as [| c s IH]; intros cur Hcur.
  - destruct cur; constructor; [| constructor]. split; [discriminate | exact Hcur].
  - cbn [extract_words]. destruct (isspace c) eqn:Hc.
    + destruct cur; [apply IH; reflexivity |].
      constructor; [split; [discriminate | exact Hcur] | apply IH; reflexivity].
    + apply IH. rewrite none_of_app, Hcur. cbn. now rewrite Hc.
Qed.

(** X3. The words [iss >> arg] extracts from any text are never empty and
    never contain white space, and there is none exactly when the text is
    blank in the sense of [is_empty]. *)
Theorem words_of_text (s : string) :
  Forall is_word (extract_words s EmptyString)
  /\ (extract_words s EmptyString = [] <-> is_empty s = true).
Proof.
  split; [apply extract_words_are_words; reflexivity |].
  split; [| apply extract_words_blank].
  induction s as [| c s IH]; [reflexivity |]. cbn.
  destruct (isspace c); cbn; [exact IH |].
  intros H. exfalso. revert H. apply extract_words_cur. discriminate.
Qed.

Lemma extract_words_concat (sep trail : string) (ws : list string) :
  is_empty sep = true -> sep <> EmptyString -> is_empty trail = true ->
  Forall is_word ws ->
  extract_words (String.concat sep ws ++ trail) EmptyString = ws.
Proof.
  intros Hsep Hne Ht. induction 1 as [| w ws [Hw0 Hw] Hws IH].
  - cbn. now apply extract_words_blank.
  - destruct ws as [| w2 ws].
    + cbn [String.concat]. rewrite extract_words_run by exact Hw.
      cbn [append]. now apply extract_words_last.
    + change (String.concat sep (w :: w2 :: ws))
        with (w ++ sep ++ String.concat sep (w2 :: ws))%string.
      rewrite !string_app_assoc, extract_words_run by exact Hw.
      cbn [append]. rewrite extract_words_sep by assumption.
      now rewrite IH.
Qed.

(** X4. Extraction undoes joining: words joined by any non-empty blank
    separator, with blank text before and after, are extracted as they
    were, in order. *)
Theorem extract_words_join (lead sep trail : string) (ws : list string) :
  Forall is_word ws ->
  is_empty lead = true -> is_empty trail = true ->
  is_empty sep = true -> sep <> EmptyString ->
  extract_words (lead ++ String.concat sep ws ++ trail) EmptyString = ws.
Proof.
  intros Hws Hl Ht Hs Hne. rewrite extract_words_skip by exact Hl.
  now apply extract_words_concat.
Qed.

Lemma extract_words_join_witness :
  extract_words (" " ++ String.concat "  " ["context"; "now"; "please"]%string
                 ++ " ") EmptyString
  = ["context"; "now"; "please"]%string.
Proof.
  apply (extract_words_join " " "  " " " ["context"; "now"; "please"]%string).
  - repeat (apply Forall_cons || apply Forall_nil);
      (split; [discriminate | reflexivity]).
  - reflexivity.
  - reflexivity.
  - reflexivity.
  - discriminate.
Defined.

(** ** Commands *)

Section Commands.

Context {E : Engine}.

Lemma handle_command_named (line : string) (name : string) (st : state) :
  is_command line = true -> command_name line = Some name ->
  handle_command line st =
    ((if String.eqb name "stats" then
        modify (set_FLAG_log_disable false) ;;
        st1 <- get ;;
        modify (emit (PrintTimings (FLAG_log_disable st1)
                        (llama_print_timings (g_ctx st1)))) ;;
        modify (set_FLAG_log_disable true)
      else if String.eqb name "context" then
        st1 <- get ;;
        let configured_context := Int32.wrap (llama_n_ctx (g_ctx st1)) in
        let max_context := llama_n_ctx_train (g_model st1) in
        printf (fmt_d (n_past st1) ++ " out of " ++ fmt_d configured_context
                ++ " context tokens used ("
                ++ fmt_d (Int32.sub configured_context (n_past st1))
                ++ " tokens remaining)" ++ LF)%string ;;
        (if configured_context <? max_context then
           printf ("use the `-c " ++ fmt_d max_context
                   ++ "` flag at startup for maximum context" ++ LF)%string
         else ret tt)
      else
        printf (name ++ ": unrecognized command" ++ LF)%string) ;;
     ret true) st.
Proof.
  intros Hc Hn. unfold command_name in Hn. unfold handle_command.
  rewrite command_test, Hc. cbn [negb].
  destruct (extract_words (cstr_tail line) EmptyString) as [| arg0 args];
    [discriminate |].
  cbn in Hn. injection Hn as ->. reflexivity.
Qed.

(** X5. A command is selected by its first word alone: two command lines
    with the same name do the same, whatever follows the name. *)
Theorem command_arguments_ignored (line1 line2 : string) (name : string)
  (st : state) :
  is_command line1 = true -> is_command line2 = true ->
  command_name line1 = Some name -> command_name line2 = Some name ->
  handle_command line1 st = handle_command line2 st.
Proof.
  intros H1 H2 N1 N2.
  rewrite (handle_command_named line1 name st H1 N1).
  rewrite (handle_command_named line2 name st H2 N2). reflexivity.
Qed.

(** X6. The [context] command writes to standard output the tokens used,
    the configured window and their difference, the tokens remaining,
    then the hint for a larger window exactly when the window is smaller
    than the model's training context.  It changes nothing else: the
    state is the one before with that text appended.  The window and the
    difference are within [int]. *)
Theorem context_command (line : string) (st : state) :
  is_command line = true -> command_name line = Some "context"%string ->
  0 <= llama_n_ctx (g_ctx st) <= Int32.INT_MAX ->
  Int32.in_range (llama_n_ctx (g_ctx st) - n_past st) ->
  let used := n_past st in
  let window := llama_n_ctx (g_ctx st) in
  let max_context := llama_n_ctx_train (g_model st) in
  let report :=
    (fmt_d used ++ " out of " ++ fmt_d window ++ " context tokens used ("
     ++ fmt_d (window - used) ++ " tokens remaining)" ++ LF)%string in
  let hint :=
    ("use the `-c " ++ fmt_d max_context
     ++ "` flag at startup for maximum context" ++ LF)%string in
  handle_command line st =
    Ret true (if window <? max_context
              then emit (Stdout hint) (emit (Stdout report) st)
              else emit (Stdout report) st).
Proof.
  intros Hc Hn Hw Hr used window max_context report hint.
  rewrite (handle_command_named line "context" st Hc Hn).
  cbn [String.eqb Ascii.eqb Bool.eqb]. unfold bind, get, printf, modify, ret.
  cbn [n_past g_ctx g_model emit].
  rewrite (wrap_id (llama_n_ctx (g_ctx st)))
    by (unfold Int32.in_range, Int32.INT_MIN; lia).
  rewrite sub_id by exact Hr.
  fold used window max_context.
  destruct (window <? max_context); reflexivity.
Qed.

(** X7. A command whose name is neither [stats] nor [context] is not
    fatal: the name is echoed with ": unrecognized command" on standard
    output, the dispatcher reports the line as handled, and the state is
    otherwise the one before. *)
Theorem unrecognized_command (line : string) (name : string) (st : state) :
  is_command line = true -> command_name line = Some name ->
  name <> "stats"%string -> name <> "context"%string ->
  handle_command line st =
    Ret true (emit (Stdout (name ++ ": unrecognized command" ++ LF)) st).
Proof.
  intros Hc Hn Hs Hx. rewrite (handle_command_named line name st Hc Hn).
  apply String.eqb_neq in Hs, Hx. rewrite Hs, Hx. reflexivity.
Qed.

End Commands.

Lemma command_arguments_ignored_witness :
  let E := Toy.engine 10 true [] in
  let st := Toy.state_at 10 true 4 true [] in
  @handle_command E "/stats" st = @handle_command E "/stats   now please" st.
Proof.
  intros E st.
  apply (@command_arguments_ignored E "/stats" "/stats   now please" "stats" st);
    reflexivity.
Defined.

Lemma context_command_witness :
  let E := Toy.engine 10 true [] in
  let st := Toy.state_at 10 true 4 true [] in
  @handle_command E "/context" st =
  Ret true
    (emit (Stdout ("use the `-c 4096` flag at startup for maximum context" ++ LF))
       (emit (Stdout ("4 out of 10 context tokens used (6 tokens remaining)" ++ LF))
          st)).
Proof.
  intros E st.
  apply (@context_command E "/context" st).
  - reflexivity.
  - reflexivity.
  - unfold Int32.INT_MAX. simpl. lia.
  - unfold Int32.in_range, Int32.INT_MIN, Int32.INT_MAX. simpl. lia.
Defined.

Lemma unrecognized_command_witness :
  let E := Toy.engine 10 true [] in
  let st := Toy.state_at 10 true 4 true [] in
  @handle_command E "/help me" st =
  Ret true (emit (Stdout ("help: unrecognized command" ++ LF)) st).
Proof.
  intros E st.
  apply (@unrecognized_command E "/help me" "help" st).
  - reflexivity.
  - reflexivity.
  - discriminate.
  - discriminate.
Defined.

(** ** [basename] *)

Lemma char_at_slashes (k i : nat) :
  (i < k)%nat -> char_at (slashes k) i = "/"%char.
Proof.
  revert i. induction k as [| k IH]; intros i Hi; [lia |].
  destruct i as [| i]; [reflexivity |]. apply (IH i). lia.
Qed.

Lemma length_slashes (k : nat) : String.length (slashes k) = k.
Proof. induction k as [| k IH]; cbn; [reflexivity | now rewrite IH]. Qed.

Lemma char_at_none_of (p : ascii -> bool) (s : string) (i : nat) :
  none_of p s = true -> (i < String.length s)%nat -> p (char_at s i) = false.
Proof.
  revert i. induction s as [| c s IH]; intros i Hs Hi; [cbn in Hi; lia |].
  cbn in Hs. apply andb_true_iff in Hs as [Hc Hs]. apply negb_true_iff in Hc.
  destruct i as [| i]; [exact Hc |]. apply (IH i Hs). cbn in Hi. lia.
Qed.

(** The first loop stops at the end of a body that does not end in a
    slash. *)
Lemma basename_end_body (body : string) (k : nat) :
  (0 < String.length body)%nat ->
  is_slash (char_at body (String.length body - 1)) = false ->
  forall j, (j <= k)%nat ->
    basename_end (body ++ slashes k) (String.length body + j)
    = String.length body.
Proof.
  intros Hlen Hlast. induction j as [| j IH]; intros Hj.
  - rewrite Nat.add_0_r. destruct (String.length body) as [| e1] eqn:He; [lia |].
    cbn [basename_end]. destruct e1 as [| e2]; [reflexivity |].
    rewrite char_at_app_l by lia.
    replace (S (S e2) - 1)%nat with (S e2) in Hlast by lia.
    unfold is_slash in Hlast. now rewrite Hlast.
  - replace (String.length body + S j)%nat with (S (String.length body + j)) by lia.
    cbn [basename_end].
    destruct (String.length body + j)%nat as [| e2] eqn:He; [lia |].
    rewrite <- He. rewrite char_at_app_r, char_at_slashes by lia.
    cbn. rewrite He. apply IH. lia.
Qed.

Lemma basename_end_slashes (k : nat) :
  forall j, (j <= k)%nat -> basename_end (slashes (S k)) (S j) = 1%nat.
Proof.
  induction j as [| j IH]; intros Hj; [reflexivity |].
  cbn [basename_end]. rewrite char_at_slashes by lia. cbn. apply IH. lia.
Qed.

(** The second loop stops at the start of a name that has no slash, after
    a prefix that is empty or ends in a slash. *)
Lemma basename_start_name (pre name rest : string) :
  pre = EmptyString \/ (exists dir, pre = (dir ++ "/")%string) ->
  none_of is_slash name = true ->
  forall j, (j <= String.length name)%nat ->
    basename_start (pre ++ name ++ rest) (String.length pre + j)
    = String.length pre.
Proof.
  intros Hpre Hname. induction j as [| j IH]; intros Hj.
  - rewrite Nat.add_0_r. destruct Hpre as [-> | [dir ->]]; [reflexivity |].
    rewrite string_length_app. cbn [String.length].
    replace (String.length dir + 1)%nat with (S (String.length dir)) by lia.
    cbn [basename_start]. rewrite string_app_assoc.
    replace (String.length dir) with (String.length dir + 0)%nat at 1 by lia.
    rewrite char_at_app_r. reflexivity.
  - replace (String.length pre + S j)%nat with (S (String.length pre + j)) by lia.
    cbn [basename_start]. rewrite char_at_app_r, char_at_app_l by lia.
    pose proof (char_at_none_of is_slash name j Hname ltac:(lia)) as Hc.
    unfold is_slash in Hc. rewrite Hc. cbn. apply IH. lia.
Qed.

Lemma basename_of (pre name : string) (k : nat) :
  pre = EmptyString \/ (exists dir, pre = (dir ++ "/")%string) ->
  name <> EmptyString -> none_of is_slash name = true ->
  basename (pre ++ name ++ slashes k) = name.
Proof.
  intros Hpre Hne Hname.
  assert (Hn : (0 < String.length name)%nat).
  { destruct name; [congruence | cbn; lia]. }
  unfold basename.
  rewrite !string_length_app, length_slashes.
  destruct (Nat.eqb_spec (String.length pre + (String.length name + k)) 0);
    [lia |].
  assert (He : basename_end (pre ++ name ++ slashes k)
                 (String.length pre + (String.length name + k))
               = (String.length pre + String.length name)%nat).
  { rewrite <- string_app_assoc, Nat.add_assoc, <- string_length_app.
    apply basename_end_body; [rewrite string_length_app; lia | | lia].
    rewrite string_length_app.
    replace (String.length pre + String.length name - 1)%nat
      with (String.length pre + (String.length name - 1))%nat by lia.
    rewrite char_at_app_r. apply char_at_none_of; [exact Hname | lia]. }
  rewrite He.
  replace (String.length pre + String.length name - 1)%nat
    with (String.length pre + (String.length name - 1))%nat by lia.
  rewrite basename_start_name by (auto; lia).
  replace (String.length pre + String.length name - String.length pre)%nat
    with (String.length name) by lia.
  apply substring_app.
Qed.

(** X8. [basename] yields the last component of a path: for a name that
    is not empty and has no slash, it is the name, whether the name
    stands alone or after a directory and a slash, and whatever the
    number of slashes that follow it.  A path of slashes only gives one
    slash, and the empty path gives a dot. *)
Theorem basename_last_component (dir name : string) (k : nat) :
  name <> EmptyString -> none_of is_slash name = true ->
  basename (dir ++ "/" ++ name ++ slashes k) = name
  /\ basename (name ++ slashes k) = name
  /\ basename (slashes (S k)) = "/"%string
  /\ basename EmptyString = "."%string.
Proof.
  intros Hne Hname. split; [| split; [| split]].
  - rewrite <- (string_app_assoc dir "/").
    apply basename_of; [right; eauto | exact Hne | exact Hname].
  - apply (basename_of EmptyString name k); [left; reflexivity | exact Hne | exact Hname].
  - unfold basename. change (String.length (slashes (S k))) with (S (String.length (slashes k))).
    rewrite length_slashes. cbn [Nat.eqb].
    rewrite basename_end_slashes by lia.
    cbn [Nat.sub basename_start slashes String.substring].
    destruct (slashes k); reflexivity.
  - reflexivity.
Qed.

Lemma basename_last_component_witness :
  basename ("/models/7b" ++ "/" ++ "toy.gguf" ++ slashes 2) = "toy.gguf"%string
  /\ basename ("toy.gguf" ++ slashes 2) = "toy.gguf"%string
  /\ basename (slashes 3) = "/"%string
  /\ basename EmptyString = "."%string.
Proof.
  apply (basename_last_component "/models/7b" "toy.gguf" 2).
  - discriminate.
  - reflexivity.
Defined.

(** ** Completions *)

(** X9. [on_completion] appends to the completions, in the order of the
    table, the entries the typed line is a prefix of, and nothing else.
    Each entry it offers is a command the dispatcher recognises, [stats]
    or [context]; a line that does not start with [/] is offered none,
    and the empty line and [/] are offered both. *)
Theorem completions_are_commands (line : string) (comp : list string) :
  on_completion line comp
  = comp ++ filter (fun c => String.prefix line c) kCompletions
  /\ (forall c, In c (on_completion line []) ->
        String.prefix line c = true
        /\ is_command c = true
        /\ (command_name c = Some "stats"%string
            \/ command_name c = Some "context"%string))
  /\ (forall c rest, c <> "/"%char -> on_completion (String c rest) [] = [])
  /\ on_completion EmptyString [] = kCompletions
  /\ on_completion "/" [] = kCompletions.
Proof.
  assert (Heq : forall ln l, on_completion ln l
                 = l ++ filter (fun c => String.prefix ln c) kCompletions).
  { intros ln l. unfold on_completion, startswith, kCompletions.
    cbn [fold_left filter].
    destruct (String.prefix ln "/context"), (String.prefix ln "/stats");
      rewrite <- ?app_assoc, ?app_nil_r; reflexivity. }
  split; [apply Heq |]. split; [| split; [| split; reflexivity]].
  - intros c Hin. rewrite Heq in Hin. cbn [app] in Hin.
    apply filter_In in Hin as [Hin Hp]. split; [exact Hp |].
    cbn in Hin. destruct Hin as [<- | [<- | []]]; split; auto.
  - intros c rest Hc. rewrite Heq. cbn.
    destruct (ascii_dec c "/"); [congruence | reflexivity].
Qed.

(** ** The loops end *)

Section Steps.

Context {E : Engine}.

(** One test of the generation loop. *)
Lemma generate_step (fuel : nat) (params : gpt_params)
  (smpl : llama_sampling_context) (st : state) :
  let st0 := deliver_sigint st in
  let id := fst (llama_sampling_sample smpl (g_ctx st0)) in
  let smpl1 := snd (llama_sampling_sample smpl (g_ctx st0)) in
  let smpl2 := llama_sampling_accept smpl1 (g_ctx st0) id true in
  let sampled := emit (Accept id true) (emit (Sample id) st0) in
  let printed :=
    emit Flush
      (emit (Stdout (llama_token_to_piece (g_ctx st0) id (special params)))
         sampled) in
  let b := llama_batch_get_one [id] 1 (n_past st0) 0 in
  let r := llama_decode (g_ctx st0) b in
  let decoded := emit (Decode b (snd r)) (set_g_ctx (fst r) printed) in
  generate (S fuel) params smpl st =
    if g_got_sigint st0 =? 0
    then if llama_token_is_eog (g_model st0) id
         then Ret smpl2 sampled
         else if snd r =? 0
         then generate fuel params smpl2
                (set_n_past (Int32.add (n_past st0) 1) decoded)
         else Exit 1 (emit (Stderr (overflow_message (n_past st0)
                                      (llama_n_ctx_train (g_model st0)))) decoded)
    else Ret smpl st0.
Proof.
  intros st0 id smpl1 smpl2 sampled printed b r decoded.
  cbn [generate]. unfold bind at 1 2. unfold modify at 1, get at 1. fold st0.
  destruct (g_got_sigint st0 =? 0); [| reflexivity].
  subst id smpl1 smpl2.
  destruct (llama_sampling_sample smpl (g_ctx st0)) as [id smpl1] eqn:Hs.
  cbn [fst snd] in *.
  unfold bind at 1 2. unfold modify at 1 2. cbn [g_model emit].
  destruct (llama_token_is_eog (g_model st0) id); [reflexivity |].
  unfold bind at 1 2 3. unfold printf, fflush_stdout, modify.
  fold sampled. fold printed.
  rewrite eval_id_step.
  change (n_past printed) with (n_past st0).
  change (g_ctx printed) with (g_ctx st0).
  change (g_model printed) with (g_model st0).
  fold b. fold r. fold decoded.
  destruct (snd r =? 0); reflexivity.
Qed.

Lemma deliver_sigint_frame (st : state) :
  n_past (deliver_sigint st) = n_past st
  /\ g_ctx (deliver_sigint st) = g_ctx st
  /\ g_model (deliver_sigint st) = g_model st
  /\ trace (deliver_sigint st) = trace st.
Proof.
  unfold deliver_sigint. destruct (sigint_schedule st) as [| [] l]; repeat split.
Qed.


End Steps.


Create HintDb finishes.

Section Termination.

Context {E : Engine} {C : EngineContract}.

(** The evaluator's loop ends within as many tests as the window has
    room, plus one: each accepted chunk takes at least one slot. *)
Lemma eval_tokens_loop_finishes (tokens : list llama_token) (n_batch : Z) :
  0 < n_batch ->
  (forall c, llama_n_ctx c + n_batch <= Int32.INT_MAX) ->
  forall (fuel : nat) (i : Z) (st : state),
    0 <= i -> (i < int_size tokens -> i <= n_past st) ->
    0 <= n_past st <= llama_n_ctx (g_ctx st) ->
    (Z.to_nat (llama_n_ctx (g_ctx st) - n_past st) < fuel)%nat ->
    (exists st', eval_tokens_loop fuel tokens n_batch (int_size tokens) i st
                 = Ret tt st')
    \/ (exists st', eval_tokens_loop fuel tokens n_batch (int_size tokens) i st
                    = Exit 1 st').
Proof.
  intros Hb Hwin.
  induction fuel as [| fuel IH]; intros i st Hi Hip Hp Hfuel; [lia |].
  destruct (Z.lt_ge_cases i (int_size tokens)) as [Hlt | Hge].
  - pose proof (Hwin (g_ctx st)) as Hw0.
    destruct (eval_tokens_loop_step_int fuel tokens n_batch i st Hb
                ltac:(lia) ltac:(lia)) as [Hlen Hstep].
    cbv zeta in Hlen, Hstep. rewrite Hstep. clear Hstep.
    set (n_eval := Z.min (int_size tokens - i) n_batch) in *.
    set (c := tokens_at tokens i n_eval) in *.
    set (b := llama_batch_get_one c n_eval (n_past st) 0).
    pose proof (window_is_fixed (g_ctx st) b) as Hw.
    destruct (Z.eqb_spec (snd (llama_decode (g_ctx st) b)) 0) as [Hrc | Hrc].
    + pose proof (accepted_fits _ _ Hrc) as Hfit. cbn in Hfit.
      rewrite add_id by (unfold Int32.in_range, Int32.INT_MIN; lia).
      apply IH; cbn; lia.
    + right. eexists. reflexivity.
  - cbn [eval_tokens_loop].
    destruct (Z.ltb_spec i (int_size tokens)); [lia |].
    left. eexists. reflexivity.
Qed.

(** The generation loop ends within as many tests as the window has
    room, plus one, whatever the sampler yields and whether or not an
    interrupt arrives: each token generated takes a slot. *)
Lemma generate_finishes (params : gpt_params) :
  forall (fuel : nat) (smpl : llama_sampling_context) (st : state),
    0 <= n_past st <= llama_n_ctx (g_ctx st) ->
    (Z.to_nat (llama_n_ctx (g_ctx st) - n_past st) < fuel)%nat ->
    (exists a st', generate fuel params smpl st = Ret a st')
    \/ (exists st', generate fuel params smpl st = Exit 1 st').
Proof.
  induction fuel as [| fuel IH]; intros smpl st Hp Hfuel; [lia |].
  rewrite generate_step. cbv zeta.
  destruct (deliver_sigint_frame st) as (Hn & Hc & _ & _).
  rewrite Hn, Hc.
  destruct (g_got_sigint (deliver_sigint st) =? 0);
    [| left; eexists _, _; reflexivity].
  destruct (llama_token_is_eog _ _); [left; eexists _, _; reflexivity |].
  set (b := llama_batch_get_one _ 1 (n_past st) 0).
  pose proof (window_is_fixed (g_ctx st) b) as Hw.
  pose proof (window_is_int (g_ctx st)) as Hint.
  destruct (Z.eqb_spec (snd (llama_decode (g_ctx st) b)) 0) as [Hrc | Hrc];
    [| right; eexists; reflexivity].
  pose proof (accepted_fits _ _ Hrc) as Hfit. cbn in Hfit.
  rewrite add_id by (unfold Int32.in_range, Int32.INT_MIN; lia).
  apply IH; cbn; lia.
Qed.

Lemma finishes_ret {A : Type} (a : A) : finishes (ret a).
Proof. intros st _. left. eexists _, _. reflexivity. Qed.

Lemma finishes_modify (f : state -> state) : finishes (modify f).
Proof. intros st _. left. eexists _, _. reflexivity. Qed.

Lemma finishes_get : finishes get.
Proof. intros st _. left. eexists _, _. reflexivity. Qed.

Lemma finishes_apply_template (tmpl : string) (chat : list llama_chat_msg)
  (a : bool) : finishes (apply_template tmpl chat a).
Proof. intros st _. left. eexists _, _. reflexivity. Qed.

Lemma finishes_handle_command (line : string) : finishes (handle_command line).
Proof.
  intros st _. left. destruct (is_command line) eqn:Hc.
  - destruct (handle_command_reports line st Hc) as (st' & out & H & _). eauto.
  - rewrite (handle_command_chat line st Hc). eauto.
Qed.

Lemma finishes_bind {A B : Type} (m : M A) (k : A -> M B) :
  finishes m -> accounts m -> (forall a, finishes (k a)) ->
  finishes (bind m k).
Proof.
  intros Hm Ha Hk st Hp. specialize (Ha st Hp).
  destruct (Hm st Hp) as [(a & st' & Hr) | (st' & Hr)]; unfold bind; rewrite Hr.
  - rewrite Hr in Ha. cbn in Ha. apply Hk.
    destruct Ha as (_ & _ & _ & HB & _). exact HB.
  - right. eauto.
Qed.

Variable params : gpt_params.
Variable fuel : nat.

Hypothesis batch_size_positive : 0 < n_batch params.

Hypothesis window_leaves_room :
  forall c, llama_n_ctx c + n_batch params <= Int32.INT_MAX.

Hypothesis fuel_exceeds_window :
  forall c, (Z.to_nat (llama_n_ctx c) < fuel)%nat.

#[local] Hint Resolve accounts_ret accounts_get accounts_out_of_fuel
  accounts_deliver_sigint accounts_tokenize accounts_apply_template
  accounts_handle_command : accounts.
#[local] Hint Extern 1 (accounts (modify (emit _))) =>
  apply accounts_emit; reflexivity : accounts.
#[local] Hint Extern 1 (accounts (modify (set_g_got_sigint _))) =>
  apply accounts_frame; intros; repeat split : accounts.
#[local] Hint Extern 2 (accounts (bind _ _)) =>
  apply accounts_bind; [| intros] : accounts.
#[local] Hint Extern 3 (accounts (if ?c then _ else _)) => destruct c : accounts.
#[local] Hint Extern 1 (accounts (eval_string _ _ _ _ _)) =>
  apply accounts_eval_string; assumption : accounts.
#[local] Hint Extern 1 (accounts (generate _ _ _)) =>
  apply accounts_generate; assumption : accounts.
#[local] Hint Extern 1 (accounts (user_turn _ _ _ _)) =>
  apply accounts_user_turn; assumption : accounts.
#[local] Hint Extern 1 (accounts (repl _ _ _ _)) =>
  apply accounts_repl; assumption : accounts.

#[local] Hint Resolve finishes_ret finishes_modify finishes_get
  finishes_apply_template finishes_handle_command : finishes.
#[local] Hint Extern 2 (finishes (bind _ _)) =>
  apply finishes_bind;
  [| unfold printf, call; solve [auto 20 with accounts] | intros] : finishes.
#[local] Hint Extern 3 (finishes (if ?c then _ else _)) => destruct c : finishes.

Ltac finishes_auto :=
  unfold printf, fprintf_stderr, fflush_stdout, call; auto 20 with finishes.

Lemma finishes_eval_string (str : string) (a p : bool) :
  finishes (eval_string fuel str (n_batch params) a p).
Proof.
  intros st Hp. unfold eval_string. erewrite bind_ret by reflexivity.
  unfold eval_tokens.
  pose proof (fuel_exceeds_window (g_ctx st)) as Hf.
  destruct (eval_tokens_loop_finishes
              (llama_tokenize (g_ctx st) str a p) (n_batch params)
              batch_size_positive window_leaves_room fuel 0
              (emit (Tokenize str a p) st))
    as [(st' & H) | (st' & H)]; cbn; try lia; rewrite H; eauto.
Qed.

Lemma finishes_generate (smpl : llama_sampling_context) :
  finishes (generate fuel params smpl).
Proof.
  intros st Hp. pose proof (fuel_exceeds_window (g_ctx st)) as Hf.
  apply generate_finishes; [exact Hp | lia].
Qed.

#[local] Hint Resolve finishes_eval_string finishes_generate : finishes.

Lemma finishes_user_turn (smpl : llama_sampling_context) (line : string) :
  finishes (user_turn fuel params smpl line).
Proof. unfold user_turn, generation. finishes_auto. Qed.

#[local] Hint Resolve finishes_user_turn : finishes.

Lemma finishes_repl (lines : list string) :
  forall smpl, finishes (repl fuel params smpl lines).
Proof.
  induction lines as [| line rest IH]; intros smpl; cbn [repl]; finishes_auto.
Qed.

#[local] Hint Resolve finishes_repl : finishes.

Lemma finishes_session (lines : list string) :
  finishes (session fuel params lines).
Proof. unfold session. finishes_auto. Qed.

End Termination.

Lemma flushes_app (tr1 tr2 : list event) :
  flushes (tr1 ++ tr2) = flushes tr1 + flushes tr2.
Proof.
  induction tr1 as [| e tr1 IH]; [reflexivity |].
  destruct e; cbn [app flushes]; rewrite IH; lia.
Qed.

Section Turns.

Context {E : Engine} {C : EngineContract}.

Lemma generation_of_generate (fuel : nat) (params : gpt_params)
  (smpl : llama_sampling_context) (st : state) :
  generation fuel params smpl st =
    match generate fuel params smpl st with
    | Ret a st' => Ret a (emit (Stdout LF) (set_g_got_sigint 0 st'))
    | o => o
    end.
Proof.
  unfold generation. unfold bind at 1.
  destruct (generate fuel params smpl st); reflexivity.
Qed.

(** X11. A generation turn cannot run on for ever: started inside the
    window, it ends within as many loop tests as the window has room for
    tokens, plus one, whatever the sampler yields and whether or not an
    interrupt arrives.  It returns, with the interrupt flag cleared, or
    leaves through the overflow exit. *)
Theorem generation_bounded (fuel : nat) (params : gpt_params)
  (smpl : llama_sampling_context) (st : state) :
  0 <= n_past st <= llama_n_ctx (g_ctx st) ->
  (Z.to_nat (llama_n_ctx (g_ctx st) - n_past st) < fuel)%nat ->
  (exists smpl' st', generation fuel params smpl st = Ret smpl' st'
                     /\ g_got_sigint st' = 0)
  \/ (exists st', generation fuel params smpl st = Exit 1 st').
Proof.
  intros Hp Hfuel. rewrite generation_of_generate.
  destruct (generate_finishes params fuel smpl st Hp Hfuel)
    as [(a & st' & H) | (st' & H)]; rewrite H.
  - left. eexists _, _. split; reflexivity.
  - right. eexists. reflexivity.
Qed.

Lemma generate_pieces (params : gpt_params) :
  forall (fuel : nat) (smpl : llama_sampling_context) (st : state),
    0 <= n_past st <= llama_n_ctx (g_ctx st) ->
    let o := generate fuel params smpl st in
    exists d,
      trace (final_state o) = trace st ++ d
      /\ flushes d = n_past (final_state o) - n_past st
                     + match o with Exit _ _ => 1 | _ => 0 end.
Proof.
  induction fuel as [| fuel IH]; intros smpl st Hp o; subst o.
  - exists []. cbn. rewrite app_nil_r. split; [reflexivity | lia].
  - rewrite generate_step. cbv zeta.
    destruct (deliver_sigint_frame st) as (Hn & Hc & _ & Ht).
    rewrite Hn, Hc.
    destruct (g_got_sigint (deliver_sigint st) =? 0).
    2:{ exists []. cbn. rewrite Ht, Hn, app_nil_r. split; [reflexivity | lia]. }
    destruct (llama_token_is_eog _ _).
    { eexists. cbn [final_state trace n_past emit].
      rewrite Ht, Hn, <- !app_assoc. split; [reflexivity | cbn; lia]. }
    set (id := fst (llama_sampling_sample smpl (g_ctx st))).
    set (b := llama_batch_get_one [id] 1 (n_past st) 0).
    pose proof (window_is_fixed (g_ctx st) b) as Hw.
    pose proof (window_is_int (g_ctx st)) as Hint.
    destruct (Z.eqb_spec (snd (llama_decode (g_ctx st) b)) 0) as [Hrc | Hrc].
    + pose proof (accepted_fits _ _ Hrc) as Hfit. cbn in Hfit.
      rewrite add_id by (unfold Int32.in_range, Int32.INT_MIN; lia).
      match goal with
      | |- context [generate fuel params ?s ?x] =>
          destruct (IH s x) as (d & Hd & Hf); [cbn; lia |]
      end.
      cbv zeta in Hf. cbn [trace n_past emit set_n_past set_g_ctx] in Hd, Hf.
      rewrite Ht in Hd.
      eexists (_ :: _ :: _ :: _ :: _ :: d). split.
      * rewrite Hd, <- !app_assoc. reflexivity.
      * cbn [flushes]. rewrite Hf. lia.
    + eexists. cbn [final_state trace n_past emit set_g_ctx].
      rewrite Ht, Hn, <- !app_assoc. split; [reflexivity | cbn; lia].
Qed.

(** X12. What the user has seen is in the context.  Over a generation
    turn started inside the window, wherever it is left, the number of
    pieces flushed to standard output is the number of tokens by which
    [n_past] has grown; at the overflow exit it is one more: the last
    piece was shown and the engine refused its token. *)
Theorem pieces_in_context (fuel : nat) (params : gpt_params)
  (smpl : llama_sampling_context) (st : state) :
  0 <= n_past st <= llama_n_ctx (g_ctx st) ->
  let o := generation fuel params smpl st in
  exists d,
    trace (final_state o) = trace st ++ d
    /\ flushes d = n_past (final_state o) - n_past st
                   + match o with Exit _ _ => 1 | _ => 0 end.
Proof.
  intros Hp o. subst o. rewrite generation_of_generate.
  destruct (generate_pieces params fuel smpl st Hp) as (d & Hd & Hf).
  cbv zeta in Hf.
  destruct (generate fuel params smpl st) as [a s | c s | s | s];
    cbn [final_state] in *; try (exists d; split; assumption).
  exists (d ++ [Stdout LF]). cbn. rewrite Hd, flushes_app, <- app_assoc.
  split; [reflexivity |]. cbn. lia.
Qed.

(** X2. The program always ends: for every list of input lines, every
    schedule of interrupts and every sampler, with a positive batch size
    and a window that leaves room for one batch below [INT_MAX], a run
    whose loops are given more fuel than the window has slots terminates,
    with status 0, 1, 2 or 3.  It never reaches the undefined access and
    is never cut off. *)
Theorem chatbot_main_ends (argv : list string) (log_disable0 : bool)
  (schedule : list bool) (lines : list string) (fuel : nat) :
  (forall p, gpt_params_parse argv = Some p ->
             0 < n_batch p
             /\ forall c, llama_n_ctx c + n_batch p <= Int32.INT_MAX) ->
  (forall c, (Z.to_nat (llama_n_ctx c) < fuel)%nat) ->
  exists status ev,
    chatbot_main argv log_disable0 schedule lines fuel = Terminated status ev
    /\ (status = 0 \/ status = 1 \/ status = 2 \/ status = 3).
Proof.
  intros Hparams Hfuel. unfold chatbot_main.
  destruct (gpt_params_parse argv) as [p |]; [| eexists _, _; split; eauto].
  destruct (Hparams p eq_refl) as [Hb Hw].
  destruct (llama_load_model_from_file (model p)) as [m |];
    [| eexists _, _; split; eauto].
  destruct (llama_new_context_with_model m p) as [c |];
    [| eexists _, _; split; eauto 6].
  match goal with
  | |- context [session fuel ?q lines ?s] =>
      pose proof (safe_session fuel q lines s) as Hs;
      assert (Hf : (exists a st', session fuel q lines s = Ret a st')
                   \/ (exists st', session fuel q lines s = Exit 1 st'))
  end.
  { apply finishes_session.
    - destruct (String.eqb (prompt p) EmptyString); exact Hb.
    - destruct (String.eqb (prompt p) EmptyString); exact Hw.
    - exact Hfuel.
    - cbn. pose proof (window_is_int c). lia. }
  destruct Hf as [(a & st' & H) | (st' & H)]; rewrite H in Hs |- *; cbn in Hs.
  - eexists _, _. split; [reflexivity | left; exact Hs].
  - eexists _, _. split; [reflexivity | right; left; reflexivity].
Qed.

End Turns.

Lemma generation_bounded_witness :
  let E := Toy.engine 10 true [] in
  let st := Toy.state_at 10 true 8 true [] in
  (exists smpl' st',
      @generation E 3 (Toy.params "sys") [104; 105; 106] st = Ret smpl' st'
      /\ g_got_sigint st' = 0)
  \/ (exists st',
         @generation E 3 (Toy.params "sys") [104; 105; 106] st = Exit 1 st').
Proof.
  intros E st.
  apply (@generation_bounded E (toy_contract 10 true _ toy_window_10) 3
           (Toy.params "sys") [104; 105; 106] st).
  - simpl. lia.
  - simpl. lia.
Defined.

Lemma pieces_in_context_witness :
  let E := Toy.engine 10 true [] in
  let st := Toy.state_at 10 true 8 true [] in
  let o := @generation E 5 (Toy.params "sys") [104; 105; 106] st in
  exists d,
    trace (final_state o) = trace st ++ d
    /\ flushes d = n_past (final_state o) - n_past st
                   + match o with Exit _ _ => 1 | _ => 0 end.
Proof.
  intros E st.
  apply (@pieces_in_context E (toy_contract 10 true _ toy_window_10) 5
           (Toy.params "sys") [104; 105; 106] st).
  simpl. lia.
Defined.

Lemma chatbot_main_ends_witness :
  let E := Toy.engine 10 true [104; 105; 106] in
  exists status ev,
    @chatbot_main E ["llamafile"; "sys"]%string true [false; true]
      ["helo"; "/stats"; "again"]%string 11
    = Terminated status ev
    /\ (status = 0 \/ status = 1 \/ status = 2 \/ status = 3).
Proof.
  intros E.
  apply (@chatbot_main_ends E (toy_contract 10 true _ toy_window_10)).
  - intros p Hp. injection Hp as <-. split; [simpl; lia |].
    intros c. unfold Int32.INT_MAX. simpl. lia.
  - intros c. simpl. lia.
Defined.

(** ** Tear-down *)

Create HintDb keeps.

Section Release.

Context {E : Engine}.

Lemma keeps_ret {A : Type} (P : event -> bool) (a : A) : keeps P (ret a).
Proof. intros st. exists []. cbn. now rewrite app_nil_r. Qed.

Lemma keeps_get (P : event -> bool) : keeps P get.
Proof. intros st. exists []. cbn. now rewrite app_nil_r. Qed.

Lemma keeps_exit {A : Type} (P : event -> bool) (c : Z) :
  keeps P (@exit E A c).
Proof. intros st. exists []. cbn. now rewrite app_nil_r. Qed.

Lemma keeps_undefined {A : Type} (P : event -> bool) :
  keeps P (@undefined E A).
Proof. intros st. exists []. cbn. now rewrite app_nil_r. Qed.

Lemma keeps_out_of_fuel {A : Type} (P : event -> bool) :
  keeps P (@out_of_fuel E A).
Proof. intros st. exists []. cbn. now rewrite app_nil_r. Qed.

Lemma keeps_emit (P : event -> bool) (e : event) :
  P e = true -> keeps P (modify (emit e)).
Proof. intros He st. exists [e]. cbn. now rewrite He. Qed.

Lemma keeps_frame (P : event -> bool) (f : state -> state) :
  (forall st, trace (f st) = trace st) -> keeps P (modify f).
Proof. intros Hf st. exists []. cbn. now rewrite Hf, app_nil_r. Qed.

Lemma keeps_bind {A B : Type} (P : event -> bool) (m : M A) (k : A -> M B) :
  keeps P m -> (forall a, keeps P (k a)) -> keeps P (bind m k).
Proof.
  intros Hm Hk st. destruct (Hm st) as (d1 & T1 & P1). unfold bind.
  destruct (m st) as [a st1 | c st1 | st1 | st1]; cbn in *; eauto.
  destruct (Hk a st1) as (d2 & T2 & P2). exists (d1 ++ d2).
  rewrite T2, T1, app_assoc, forallb_app, P1, P2. auto.
Qed.

Lemma keeps_decode (b : llama_batch) : keeps not_teardown (decode b).
Proof.
  intros st. unfold decode. destruct (llama_decode (g_ctx st) b) as [c rc].
  exists [Decode b rc]. split; reflexivity.
Qed.

Lemma keeps_tokenize (text : string) (a p : bool) :
  keeps not_teardown (tokenize text a p).
Proof. intros st. eexists [_]. split; reflexivity. Qed.

Lemma keeps_apply_template (tmpl : string) (chat : list llama_chat_msg)
  (a : bool) : keeps not_teardown (apply_template tmpl chat a).
Proof. intros st. eexists [_]. split; reflexivity. Qed.

#[local] Hint Resolve keeps_ret keeps_get keeps_exit keeps_undefined
  keeps_out_of_fuel keeps_decode keeps_tokenize keeps_apply_template : keeps.
#[local] Hint Extern 1 (keeps _ (modify (emit _))) =>
  apply keeps_emit; reflexivity : keeps.
#[local] Hint Extern 2 (keeps _ (modify _)) =>
  apply keeps_frame; intros; reflexivity : keeps.
#[local] Hint Extern 1 (keeps _ (modify deliver_sigint)) =>
  apply keeps_frame; apply trace_deliver_sigint : keeps.
#[local] Hint Extern 2 (keeps _ (bind _ _)) =>
  apply keeps_bind; [| intros] : keeps.
#[local] Hint Extern 3 (keeps _ (if ?c then _ else _)) => destruct c : keeps.

Ltac keeps_auto :=
  unfold die_out_of_context, printf, fprintf_stderr, fflush_stdout, call;
  auto 20 with keeps.

Lemma keeps_eval_tokens_loop (fuel : nat) (tokens : list llama_token)
  (n_batch N : Z) :
  forall i, keeps not_teardown (eval_tokens_loop fuel tokens n_batch N i).
Proof.
  induction fuel as [| fuel IH]; intros i; cbn [eval_tokens_loop]; keeps_auto.
Qed.

Lemma keeps_eval_tokens (fuel : nat) (tokens : list llama_token) (n_batch : Z) :
  keeps not_teardown (eval_tokens fuel tokens n_batch).
Proof. apply keeps_eval_tokens_loop. Qed.

#[local] Hint Resolve keeps_eval_tokens : keeps.

Lemma keeps_handle_command (line : string) :
  keeps not_teardown (handle_command line).
Proof.
  unfold handle_command.
  destruct (negb _); [keeps_auto |].
  destruct (extract_words _ _); keeps_auto.
Qed.

Lemma keeps_generate (params : gpt_params) (fuel : nat) :
  forall smpl, keeps not_teardown (generate fuel params smpl).
Proof.
  induction fuel as [| fuel IH]; intros smpl; cbn [generate]; [keeps_auto |].
  apply keeps_bind; [keeps_auto | intros _].
  apply keeps_bind; [keeps_auto | intros st].
  destruct (g_got_sigint st =? 0); [| keeps_auto].
  destruct (llama_sampling_sample smpl (g_ctx st)) as [id smpl1].
  unfold eval_id. keeps_auto.
Qed.

#[local] Hint Resolve keeps_handle_command keeps_generate : keeps.

Lemma keeps_user_turn (params : gpt_params) (fuel : nat)
  (smpl : llama_sampling_context) (line : string) :
  keeps not_teardown (user_turn fuel params smpl line).
Proof. unfold user_turn, generation, eval_string. keeps_auto. Qed.

#[local] Hint Resolve keeps_user_turn : keeps.

Lemma keeps_repl (params : gpt_params) (fuel : nat) (lines : list string) :
  forall smpl, keeps not_teardown (repl fuel params smpl lines).
Proof.
  induction lines as [| line rest IH]; intros smpl; cbn [repl]; keeps_auto.
Qed.

#[local] Hint Resolve keeps_repl : keeps.

Lemma releases_bind {A B : Type} (m : M A) (k : A -> M B) :
  keeps not_teardown m -> (forall a, releases (k a)) -> releases (bind m k).
Proof.
  intros Hm Hk st. destruct (Hm st) as (d1 & T1 & P1). unfold bind.
  destruct (m st) as [a st1 | c st1 | st1 | st1]; cbn in *;
    try (exists d1; rewrite app_nil_r; auto).
  destruct (Hk a st1) as (d2 & T2 & P2). exists (d1 ++ d2).
  rewrite T2, T1, <- !app_assoc, forallb_app, P1, P2. auto.
Qed.

Lemma releases_session (fuel : nat) (params : gpt_params)
  (lines : list string) : releases (session fuel params lines).
Proof.
  unfold session, eval_string.
  repeat (apply releases_bind; [solve [keeps_auto] | intros]).
  intros st. exists []. split; [| reflexivity].
  cbn. rewrite <- !app_assoc. reflexivity.
Qed.

(** X13. The engine's resources are released at a normal end and only
    there: a run that ends with status 0 ends with the calls
    [llama_sampling_free], [llama_free], [llama_free_model],
    [llama_backend_free], in that order, and has none of them before; a
    run that ends otherwise (bad arguments, a model or a context that
    cannot be had, the overflow exit) or is cut off makes none of these
    calls. *)
Theorem teardown_at_normal_end (argv : list string) (log_disable0 : bool)
  (schedule : list bool) (lines : list string) (fuel : nat) :
  let r := chatbot_main argv log_disable0 schedule lines fuel in
  exists d,
    events_of r
    = d ++ match status_of r with Some 0 => teardown | _ => [] end
    /\ forallb not_teardown d = true.
Proof.
  intros r. subst r. unfold chatbot_main.
  destruct (gpt_params_parse argv) as [p |];
    [| eexists; split; [symmetry; apply app_nil_r | reflexivity]].
  destruct (llama_load_model_from_file (model p)) as [m |];
    [| eexists; split; [symmetry; apply app_nil_r | reflexivity]].
  destruct (llama_new_context_with_model m p) as [c |];
    [| eexists; split; [symmetry; apply app_nil_r | reflexivity]].
  match goal with
  | |- context [session fuel ?q lines ?s] =>
      pose proof (safe_session fuel q lines s) as Hs;
      destruct (releases_session fuel q lines s) as (d & Hd & Hp);
      destruct (session fuel q lines s) as [a st | x st | st | st]
  end; cbn [final_state trace sound events_of status_of] in *.
  - subst a.
    match type of Hd with
    | _ = ?ev ++ d ++ _ => exists (ev ++ d); rewrite Hd, <- (app_assoc ev d)
    end.
    split; [reflexivity |]. rewrite forallb_app, Hp. reflexivity.
  - destruct Hs as [-> _].
    match type of Hd with
    | _ = ?ev ++ d ++ _ => exists (ev ++ d); rewrite Hd, !app_nil_r
    end.
    split; [reflexivity |]. rewrite forallb_app, Hp. reflexivity.
  - contradiction.
  - match type of Hd with
    | _ = ?ev ++ d ++ _ => exists (ev ++ d); rewrite Hd, !app_nil_r
    end.
    split; [reflexivity |]. rewrite forallb_app, Hp. reflexivity.
Qed.

End Release.

(** ** The end of generation *)

Section EndToken.

Context {E : Engine}.

(** X14. The token that ends a generation is never evaluated into the
    context: every decode the generation loop makes, wherever the loop is
    left, is of exactly one token, and that token is not an end of
    generation for the model.  The end token is folded into the sampling
    history only. *)
Theorem end_token_not_evaluated (params : gpt_params) (fuel : nat)
  (smpl : llama_sampling_context) (st : state) :
  exists d,
    trace (final_state (generation fuel params smpl st)) = trace st ++ d
    /\ Forall (no_end_token (g_model st)) d.
Proof.
  assert (Hgen : forall fuel smpl st,
             exists d,
               trace (final_state (generate fuel params smpl st)) = trace st ++ d
               /\ Forall (no_end_token (g_model st)) d).
  { clear. induction fuel as [| fuel IH]; intros smpl st.
    - exists []. cbn. now rewrite app_nil_r.
    - rewrite generate_step. cbv zeta.
      destruct (deliver_sigint_frame st) as (Hn & Hc & Hm & Ht).
      rewrite Hc, Hm.
      destruct (g_got_sigint (deliver_sigint st) =? 0).
      2:{ exists []. cbn. rewrite Ht, app_nil_r. auto. }
      set (id := fst (llama_sampling_sample smpl (g_ctx st))).
      destruct (llama_token_is_eog (g_model st) id) eqn:Heog.
      { eexists. cbn [final_state trace emit]. rewrite Ht, <- !app_assoc.
        split; [reflexivity |]. repeat constructor. }
      destruct (snd (llama_decode _ _) =? 0).
      + match goal with
        | |- context [generate fuel params ?s ?x] =>
            destruct (IH s x) as (d & Hd & Hf)
        end.
        cbn [trace g_model emit set_n_past set_g_ctx] in Hd, Hf.
        rewrite Hm in Hf. rewrite Ht in Hd.
        eexists (_ :: _ :: _ :: _ :: _ :: d). split.
        * rewrite Hd, <- !app_assoc. reflexivity.
        * repeat (constructor; [exact I |]). constructor; [| exact Hf].
          exists id. split; [reflexivity | exact Heog].
      + eexists. cbn [final_state trace emit set_g_ctx].
        rewrite Ht, <- !app_assoc. split; [reflexivity |].
        repeat (constructor; [exact I |]). constructor.
        * exists id. split; [reflexivity | exact Heog].
        * repeat constructor. }
  rewrite generation_of_generate.
  destruct (Hgen fuel smpl st) as (d & Hd & Hf).
  destruct (generate fuel params smpl st) as [a s | c s | s | s];
    cbn [final_state] in *; try (exists d; split; assumption).
  exists (d ++ [Stdout LF]). cbn. rewrite Hd, <- app_assoc.
  split; [reflexivity |]. apply Forall_app. split; [exact Hf |].
  repeat constructor.
Qed.

End EndToken.

Lemma completions_are_commands_witness :
  on_completion "/s" ["kept"%string] = ["kept"; "/stats"]%string
  /\ (String.prefix "/s" "/stats" = true
      /\ is_command "/stats" = true
      /\ (command_name "/stats" = Some "stats"%string
          \/ command_name "/stats" = Some "context"%string))
  /\ on_completion "hello" [] = [].
Proof.
  destruct (completions_are_commands "/s" ["kept"%string])
    as (H1 & H2 & H3 & _).
  split; [exact H1 |]. split.
  - apply (H2 "/stats"%string). simpl. auto.
  - apply (H3 "h"%char "ello"%string). discriminate.
Defined.

(** ** Log suppression over the session *)

Create HintDb suppressing.

Section LogSuppression.

Context {E : Engine}.

Lemma suppressing_ret {A : Type} (a : A) : suppressing (ret a).
Proof. intros st H. exact H. Qed.

Lemma suppressing_get : suppressing get.
Proof. intros st H. exact H. Qed.

Lemma suppressing_out_of_fuel {A : Type} : suppressing (@out_of_fuel E A).
Proof. intros st H. exact H. Qed.

Lemma suppressing_frame (f : state -> state) :
  (forall st, FLAG_log_disable (f st) = FLAG_log_disable st) ->
  suppressing (modify f).
Proof. intros Hf st H. cbn. now rewrite Hf. Qed.

Lemma suppressing_deliver_sigint : suppressing (modify deliver_sigint).
Proof.
  apply suppressing_frame. intros st. unfold deliver_sigint.
  destruct (sigint_schedule st) as [| [] l]; reflexivity.
Qed.

Lemma suppressing_decode (b : llama_batch) : suppressing (decode b).
Proof.
  intros st H. unfold decode. destruct (llama_decode (g_ctx st) b). exact H.
Qed.

Lemma suppressing_tokenize (text : string) (a p : bool) :
  suppressing (tokenize text a p).
Proof. intros st H. exact H. Qed.

Lemma suppressing_apply_template (tmpl : string) (chat : list llama_chat_msg)
  (a : bool) : suppressing (apply_template tmpl chat a).
Proof. intros st H. exact H. Qed.

Lemma suppressing_die {A : Type} : suppressing (@die_out_of_context E A).
Proof. intros st H. exact H. Qed.

Lemma suppressing_bind {A B : Type} (m : M A) (k : A -> M B) :
  suppressing m -> (forall a, suppressing (k a)) -> suppressing (bind m k).
Proof.
  intros Hm Hk st H. specialize (Hm st H). unfold bind.
  destruct (m st) as [a st1 | c st1 | st1 | st1]; cbn in *; try exact Hm.
  apply Hk, Hm.
Qed.

(** The dispatcher leaves log suppression on: the [stats] branch turns it
    off and on again, the others do not touch it. *)
Lemma suppressing_handle_command (line : string) :
  suppressing (handle_command line).
Proof.
  intros st H. unfold handle_command.
  destruct (negb _); [exact H |].
  destruct (extract_words _ _) as [| arg0 args]; [exact H |].
  unfold bind, modify, get, printf, ret.
  destruct (String.eqb arg0 "stats"); [reflexivity |].
  destruct (String.eqb arg0 "context"); [| exact H].
  destruct (_ <? _); exact H.
Qed.

#[local] Hint Resolve suppressing_ret suppressing_get suppressing_out_of_fuel
  suppressing_deliver_sigint suppressing_decode suppressing_tokenize
  suppressing_apply_template suppressing_die suppressing_handle_command
  : suppressing.
#[local] Hint Extern 2 (suppressing (modify _)) =>
  apply suppressing_frame; intros; reflexivity : suppressing.
#[local] Hint Extern 2 (suppressing (bind _ _)) =>
  apply suppressing_bind; [| intros] : suppressing.
#[local] Hint Extern 3 (suppressing (if ?c then _ else _)) =>
  destruct c : suppressing.

Ltac suppressing_auto :=
  unfold printf, fprintf_stderr, fflush_stdout, call; auto 20 with suppressing.

Lemma suppressing_eval_tokens_loop (fuel : nat) (tokens : list llama_token)
  (n_batch N : Z) :
  forall i, suppressing (eval_tokens_loop fuel tokens n_batch N i).
Proof.
  induction fuel as [| fuel IH]; intros i; cbn [eval_tokens_loop];
    suppressing_auto.
Qed.

Lemma suppressing_eval_tokens (fuel : nat) (tokens : list llama_token)
  (n_batch : Z) : suppressing (eval_tokens fuel tokens n_batch).
Proof. apply suppressing_eval_tokens_loop. Qed.

#[local] Hint Resolve suppressing_eval_tokens : suppressing.

Lemma suppressing_generate (params : gpt_params) (fuel : nat) :
  forall smpl, suppressing (generate fuel params smpl).
Proof.
  induction fuel as [| fuel IH]; intros smpl; cbn [generate];
    [suppressing_auto |].
  apply suppressing_bind; [suppressing_auto | intros _].
  apply suppressing_bind; [suppressing_auto | intros st].
  destruct (g_got_sigint st =? 0); [| suppressing_auto].
  destruct (llama_sampling_sample smpl (g_ctx st)) as [id smpl1].
  unfold eval_id. suppressing_auto.
Qed.

#[local] Hint Resolve suppressing_generate : suppressing.

Lemma suppressing_user_turn (params : gpt_params) (fuel : nat)
  (smpl : llama_sampling_context) (line : string) :
  suppressing (user_turn fuel params smpl line).
Proof. unfold user_turn, generation, eval_string. suppressing_auto. Qed.

(** Before any line of the input is read, the run has ended, or log
    suppression is on: nothing between two dispatches leaves it off. *)
Lemma repl_reaches (fuel : nat) (params : gpt_params) (pre : list string) :
  forall (smpl : llama_sampling_context) (st : state),
    FLAG_log_disable st = true ->
    (exists o,
        (forall a s, o <> Ret a s)
        /\ forall tail, repl fuel params smpl (pre ++ tail) st = o)
    \/ (exists smpl' s,
           FLAG_log_disable s = true
           /\ forall tail,
                repl fuel params smpl (pre ++ tail) st
                = repl fuel params smpl' tail s).
Proof.
  induction pre as [| l pre IH]; intros smpl st Hon.
  - right. exists smpl, st. split; [exact Hon | reflexivity].
  - assert (Hp : FLAG_log_disable (prompted (Some l) st) = true) by exact Hon.
    destruct (is_empty l) eqn:He.
    { destruct (IH smpl _ Hp) as [(o & Ho & Heq) | (smpl' & s & Hs & Heq)];
        [left; exists o | right; exists smpl', s]; (split; [assumption |]);
        intros tail; cbn [app]; rewrite repl_cons, He; apply Heq. }
    destruct (is_command l) eqn:Hc.
    { destruct (handle_command_reports l (prompted (Some l) st) Hc)
        as (st2 & out & Hh & _).
      pose proof (suppressing_handle_command l _ Hp) as H2.
      rewrite Hh in H2. cbn in H2.
      destruct (IH smpl st2 H2) as [(o & Ho & Heq) | (smpl' & s & Hs & Heq)];
        [left; exists o | right; exists smpl', s]; (split; [assumption |]);
        intros tail; cbn [app]; rewrite repl_cons, He, Hc;
        (erewrite bind_ret by exact Hh); apply Heq. }
    pose proof (suppressing_user_turn params fuel smpl l _ Hp) as H2.
    destruct (user_turn fuel params smpl l (prompted (Some l) st))
      as [smpl2 st2 | c st2 | st2 | st2] eqn:Hu; cbn in H2.
    + destruct (IH smpl2 st2 H2) as [(o & Ho & Heq) | (smpl' & s & Hs & Heq)];
        [left; exists o | right; exists smpl', s]; (split; [assumption |]);
        intros tail; cbn [app]; rewrite repl_cons, He, Hc;
        (erewrite bind_ret by exact Hu); apply Heq.
    + left. exists (Exit c st2). split; [discriminate |].
      intros tail. cbn [app]. rewrite repl_cons, He, Hc.
      unfold bind. now rewrite Hu.
    + left. exists (Undefined st2). split; [discriminate |].
      intros tail. cbn [app]. rewrite repl_cons, He, Hc.
      unfold bind. now rewrite Hu.
    + left. exists (OutOfFuel st2). split; [discriminate |].
      intros tail. cbn [app]. rewrite repl_cons, He, Hc.
      unfold bind. now rewrite Hu.
Qed.

(** A session started with log suppression on enters the REPL with log
    suppression on, unless the system turn already ended the run. *)
Lemma session_enters_repl (fuel : nat) (params : gpt_params) (st : state) :
  FLAG_log_disable st = true ->
  (exists o, (forall a s, o <> Ret a s)
             /\ forall lines, session fuel params lines st = o)
  \/ (exists s,
         FLAG_log_disable s = true
         /\ forall lines,
              session fuel params lines st
              = bind (repl fuel params (llama_sampling_init params) lines)
                  (fun _ => release) s).
Proof.
  intros Hon.
  set (st1 := emit (print_ephemeral "loading prompt...") st).
  set (msg := llama_chat_apply_template (g_model st1) (chat_template params)
                [{| role := "system"; content := prompt params |}] false).
  set (add_bos := llama_should_add_bos_token (llama_get_model (g_ctx st1))).
  set (st3 := emit (Tokenize msg add_bos true)
                (emit (ApplyTemplate
                         [{| role := "system"; content := prompt params |}]
                         false msg) st1)).
  set (tokens := llama_tokenize (g_ctx st3) msg add_bos true).
  pose proof (suppressing_eval_tokens fuel tokens (n_batch params) st3 Hon)
    as Hflag.
  set (after := fun st4 =>
         emit (Call "signal")
           (emit (Call "llama_sampling_init")
              (emit (Stdout ((if special params then msg else prompt params)
                             ++ LF)%string)
                 (emit clear_ephemeral st4)))).
  assert (Heq : forall lines o,
             eval_tokens fuel tokens (n_batch params) st3 = o ->
             session fuel params lines st =
               match o with
               | Ret _ st4 =>
                   bind (repl fuel params (llama_sampling_init params) lines)
                     (fun _ => release) (after st4)
               | Exit c st4 => Exit c st4
               | Undefined st4 => Undefined st4
               | OutOfFuel st4 => OutOfFuel st4
               end).
  { intros lines o Ho. unfold session, eval_string.
    erewrite bind_ret by reflexivity.
    erewrite bind_ret by reflexivity.
    erewrite bind_ret by reflexivity.
    rewrite bind_assoc. erewrite bind_ret by reflexivity.
    match goal with
    | |- bind (eval_tokens _ ?t _) _ ?s = _ =>
        change t with tokens; change s with st3
    end.
    unfold bind at 1. rewrite Ho. destruct o; reflexivity. }
  fold st1 msg add_bos st3 tokens.
  destruct (eval_tokens fuel tokens (n_batch params) st3)
    as [u st4 | c st4 | st4 | st4] eqn:Hev; cbn in Hflag.
  - right. exists (after st4). split; [exact Hflag |].
    intros lines. exact (Heq lines _ eq_refl).
  - left. exists (Exit c st4). split; [discriminate |].
    intros lines. exact (Heq lines _ eq_refl).
  - left. exists (Undefined st4). split; [discriminate |].
    intros lines. exact (Heq lines _ eq_refl).
  - left. exists (OutOfFuel st4). split; [discriminate |].
    intros lines. exact (Heq lines _ eq_refl).
Qed.


End LogSuppression.


(** That run, evaluated: it reaches the command, the report is emitted
    while suppression is relaxed, and the run ends normally. *)
Example stats_in_a_run :
  let E := Toy.engine 100 true [104] in
  let r := @chatbot_main E ["llamafile"; "sys"]%string true []
             ["helo"; "/stats"]%string 50 in
  status_of r = Some 0 /\ In (PrintTimings false "timings") (events_of r).
Proof. split; [vm_compute; reflexivity |]. vm_compute. tauto. Qed.
